(** * DSATUR graph colouring: a shallow embedding of [dsatur.py]

    The Python function [dsatur(graph)] is embedded as a function in an
    exception monad.  Dictionaries whose iteration order is observable
    ([graph], [colors]) are insertion-ordered association lists; the
    dictionaries that are only looked up ([degree], [dsat]) are finite maps;
    the set [uncolored] is the list of its elements in iteration order. *)

From stdpp Require Import base numbers list gmap sets.
From stdpp Require Import sorting.

Open Scope Z_scope.
Open Scope nat_scope.

(** ** Exceptions *)

(** The exceptions the Python code can raise: [max] of an empty sequence
    raises [ValueError]; a missing key in [d[k]] or [s.remove(k)] raises
    [KeyError].  [OutOfFuel] is not a Python exception: it marks a [while]
    loop cut off by the fuel of the embedding. *)
Inductive exn : Set := ValueError | KeyError | OutOfFuel.

Inductive res (A : Type) : Type :=
| Ok (a : A)
| Raise (e : exn).
Arguments Ok {A} a.
Arguments Raise {A} e.

Global Instance res_bind : MBind res := λ A B f m,
  match m with
  | Ok a => f a
  | Raise e => Raise e
  end.

(** [for a in l: s = f(s, a)] with a body that may raise. *)
Fixpoint for_each {A S} (f : S → A → res S) (s : S) (l : list A) : res S :=
  match l with
  | [] => Ok s
  | a :: l' => s' ← f s a; for_each f s' l'
  end.

(** ** Dictionaries *)

(** An insertion-ordered dictionary with integer keys. *)
Definition dict (A : Type) : Type := list (Z * A).

Definition dict_keys {A} (d : dict A) : list Z := d.*1.

Fixpoint dict_get {A} (d : dict A) (k : Z) : option A :=
  match d with
  | [] => None
  | (k', a) :: d' => if decide (k' = k) then Some a else dict_get d' k
  end.

(** [d[k] = a]: an existing key keeps its position, a new key goes last. *)
Fixpoint dict_set {A} (d : dict A) (k : Z) (a : A) : dict A :=
  match d with
  | [] => [(k, a)]
  | (k', a') :: d' =>
      if decide (k' = k) then (k, a) :: d' else (k', a') :: dict_set d' k a
  end.

(** [d[k]] as an expression. *)
Definition getitem {A} (d : dict A) (k : Z) : res A :=
  match dict_get d k with
  | Some a => Ok a
  | None => Raise KeyError
  end.

Definition map_getitem (m : gmap Z nat) (k : Z) : res nat :=
  match m !! k with
  | Some a => Ok a
  | None => Raise KeyError
  end.

(** ** Sets *)

(** The order in which a Python [set] built from a list of keys is
    iterated.  The language leaves it unspecified; all that is known is that
    every element is visited once. *)
Class SetOrder : Type := {
  set_iter : list Z → list Z;
  set_iter_NoDup : ∀ l, NoDup (set_iter l);
  set_iter_elem : ∀ l x, x ∈ set_iter l ↔ x ∈ l
}.

(** [s.remove(x)].  Removing an element does not move the others, so the
    elements that remain are iterated in the same relative order. *)
Definition set_remove (s : list Z) (x : Z) : res (list Z) :=
  if decide (x ∈ s) then Ok (filter (λ y, y ≠ x) s) else Raise KeyError.

(** ** [max(iterable, key=...)] *)

Section py_max.
Context {K : Type} (lt : K → K → bool) (key : Z → res K).

(** The running maximum is replaced only by a strictly larger key, so the
    first maximal item wins. *)
Fixpoint max_loop (best : Z) (bk : K) (l : list Z) : res Z :=
  match l with
  | [] => Ok best
  | x :: l' =>
      k ← key x;
      if lt bk k then max_loop x k l' else max_loop best bk l'
  end.

Definition py_max (l : list Z) : res Z :=
  match l with
  | [] => Raise ValueError
  | x :: l' => k ← key x; max_loop x k l'
  end.
End py_max.

(** Python's comparison of the tuples [(dsat, degree)]. *)
Definition pair_lt (a b : nat * nat) : bool :=
  (a.1 <? b.1) || ((a.1 =? b.1) && (a.2 <? b.2)).

(** ** The algorithm *)

Definition Graph : Type := dict (list Z).
Definition Colors : Type := dict nat.

(** [{node: len(neighbors) for node, neighbors in graph.items()}] *)
Definition degree_of (graph : Graph) : gmap Z nat :=
  foldl (λ m p, <[p.1 := length p.2]> m) ∅ graph.

(** [{colors[n] for n in ns if n in colors}] *)
Definition colors_among (colors : Colors) (ns : list Z) : gset nat :=
  list_to_set (omap (dict_get colors) ns).

(** [color = 1; while color in used_colors: color += 1] *)
Fixpoint first_free (used : gset nat) (fuel : nat) (color : nat) : nat :=
  match fuel with
  | 0 => color
  | S fuel' =>
      if decide (color ∈ used) then first_free used fuel' (S color) else color
  end.

Definition smallest_color (used : gset nat) : nat :=
  first_free used (S (size used)) 1.

Record state : Type := State {
  colors : Colors;
  dsat : gmap Z nat;
  uncolored : list Z
}.

(** Body of the loop at lines 32-34. *)
Definition update_first (graph : Graph) (colors : Colors) (uncolored : list Z)
    (dsat : gmap Z nat) (neighbor : Z) : res (gmap Z nat) :=
  if decide (neighbor ∈ uncolored) then
    ns ← getitem graph neighbor;
    Ok (<[neighbor := size (colors_among colors ns)]> dsat)
  else Ok dsat.

(** Body of the loop at lines 52-58. *)
Definition update_dsat (graph : Graph) (degree : gmap Z nat) (colors : Colors)
    (uncolored : list Z) (dsat : gmap Z nat) (neighbor : Z)
    : res (gmap Z nat) :=
  if decide (neighbor ∈ uncolored) then
    ns ← getitem graph neighbor;
    let colored_neighbors := colors_among colors ns in
    if decide (colored_neighbors = ∅) then
      d ← map_getitem degree neighbor;
      Ok (<[neighbor := d]> dsat)
    else Ok (<[neighbor := size colored_neighbors]> dsat)
  else Ok dsat.

(** The key of the main loop's [max]: [(dsat[x], degree[x])]. *)
Definition priority (degree dsat : gmap Z nat) (x : Z) : res (nat * nat) :=
  s ← map_getitem dsat x;
  d ← map_getitem degree x;
  Ok (s, d).

(** Lines 17-34: everything before the main loop. *)
Definition init `{SetOrder} (graph : Graph) : res state :=
  let degree := degree_of graph in
  let uncolored := set_iter (dict_keys graph) in
  dsat ← for_each (λ dsat node, d ← map_getitem degree node;
                                Ok (<[node := d]> dsat))
                  ∅ (dict_keys graph);
  first_vertex ← py_max Nat.ltb (map_getitem degree) (dict_keys graph);
  let colors := dict_set [] first_vertex 1 in
  uncolored ← set_remove uncolored first_vertex;
  ns ← getitem graph first_vertex;
  dsat ← for_each (update_first graph colors uncolored) dsat ns;
  Ok (State colors dsat uncolored).

(** Line 39: [max(uncolored, key=lambda x: (dsat[x], degree[x]))]. *)
Definition next_vertex (graph : Graph) (st : state) : res Z :=
  py_max pair_lt (priority (degree_of graph) (dsat st)) (uncolored st).

(** Lines 38-58: one iteration of the main loop. *)
Definition step (graph : Graph) (st : state) : res state :=
  let degree := degree_of graph in
  next_vertex ← next_vertex graph st;
  ns ← getitem graph next_vertex;
  let used_colors := colors_among (colors st) ns in
  let color := smallest_color used_colors in
  let colors := dict_set (colors st) next_vertex color in
  uncolored ← set_remove (uncolored st) next_vertex;
  ns ← getitem graph next_vertex;
  dsat ← for_each (update_dsat graph degree colors uncolored) (dsat st) ns;
  Ok (State colors dsat uncolored).

(** Lines 37-60: [while uncolored: ...; return colors]. *)
Fixpoint loop (fuel : nat) (graph : Graph) (st : state) : res Colors :=
  match uncolored st with
  | [] => Ok (colors st)
  | _ :: _ =>
      match fuel with
      | 0 => Raise OutOfFuel
      | S fuel' => st' ← step graph st; loop fuel' graph st'
      end
  end.

Definition dsatur_fuel `{SetOrder} (fuel : nat) (graph : Graph) : res Colors :=
  st ← init graph; loop fuel graph st.

(** One unit of fuel per vertex is more than the main loop needs. *)
Definition dsatur `{SetOrder} (graph : Graph) : res Colors :=
  dsatur_fuel (length graph) graph.

(** ** The drawing: [visualize_graph] *)

(** [nx.Graph] keeps its nodes in a dictionary: [add_edge(u, v)] adds [u] and
    then [v] when they are not nodes yet, and [G.nodes()] lists the nodes in
    the order in which they were added. *)
Definition add_node (nodes : list Z) (n : Z) : list Z :=
  if decide (n ∈ nodes) then nodes else nodes ++ [n].

Definition add_edge (nodes : list Z) (u v : Z) : list Z :=
  add_node (add_node nodes u) v.

(** Lines 66-69: the nodes of the graph that is drawn. *)
Definition graph_nodes (graph : Graph) : list Z :=
  foldl (λ nodes p,
           foldl (λ nodes neighbor, add_edge nodes p.1 neighbor) nodes p.2)
        [] graph.

(** Line 7: the palette has twenty entries. *)
Definition palette_size : Z := 20.

(** Line 71: the position in the palette of the entry a colour is drawn
    with, [(colors[node]-1) % len(color_palette)]. *)
Definition palette_index (color : nat) : Z :=
  ((Z.of_nat color - 1) `mod` palette_size)%Z.

(** Line 71: the list comprehension over [G.nodes()], as the list of the
    palette positions it reads. *)
Definition node_colors (graph : Graph) (colors : Colors) : res (list Z) :=
  for_each (λ acc node, color ← getitem colors node;
                        Ok (acc ++ [palette_index color]))
           [] (graph_nodes graph).

(** ** The form: [main] *)

(** The vertices [i+1 for i in range(num_vertices)]. *)
Definition vertices (num_vertices : nat) : list Z :=
  (λ i, Z.of_nat i + 1)%Z <$> seq 0 num_vertices.

(** Line 116: [[j+1 for j in range(num_vertices) if j+1 != vertex]]. *)
Definition neighbors_options (num_vertices : nat) (vertex : Z) : list Z :=
  filter (λ x, x ≠ vertex) (vertices num_vertices).

(** Lines 110-122: the graph the form builds; [selected vertex] is the list
    the multiselect of [vertex] returns. *)
Definition ui_graph (num_vertices : nat) (selected : Z → list Z) : Graph :=
  foldl (λ graph vertex, dict_set graph vertex (selected vertex))
        ((λ v, (v, [])) <$> vertices num_vertices)
        (vertices num_vertices).

(** Line 127: [any(graph.values())]; a list is true when it is not empty. *)
Definition any_values (graph : Graph) : bool :=
  existsb (λ p, match p.2 with [] => false | _ :: _ => true end) graph.

(** Python's order on the tuples [(vertex, color)]. *)
Definition item_le (a b : Z * nat) : Prop :=
  (a.1 < b.1)%Z ∨ (a.1 = b.1 ∧ a.2 ≤ b.2).

Global Instance item_le_dec a b : Decision (item_le a b).
Proof. unfold item_le. apply _. Defined.

(** Line 130: [sorted(result.items())].  The order on the items is total and
    antisymmetric, so every sorting algorithm returns the same list. *)
Definition sorted_items (result : Colors) : list (Z * nat) :=
  merge_sort item_le result.

(** What pressing the button leads to: the warning of line 138, or the
    assignment, the items of the report in the order of their lines, and the
    palette positions of the nodes drawn. *)
Inductive outcome : Type :=
| Warning
| Shown (result : Colors) (report : list (Z * nat)) (drawn : list Z).

(** Lines 126-138, once the button is pressed. *)
Definition main `{SetOrder} (num_vertices : nat) (selected : Z → list Z)
    : res outcome :=
  let graph := ui_graph num_vertices selected in
  if any_values graph then
    result ← dsatur graph;
    let report := sorted_items result in
    drawn ← node_colors graph result;
    Ok (Shown result report drawn)
  else Ok Warning.

(** ** A concrete set order *)

(** CPython keeps a set of at most four elements in a table of eight slots
    and iterates over the slots in index order.  A small non-negative
    integer hashes to itself and goes to slot [hash & 7]; when the slots of
    the elements are pairwise distinct the iteration order is therefore the
    order of the slots. *)
Definition slot (x : Z) : Z := Z.land x 7.

Fixpoint slot_insert (x : Z) (l : list Z) : list Z :=
  match l with
  | [] => [x]
  | y :: l' =>
      if decide (slot x < slot y)%Z then x :: l else y :: slot_insert x l'
  end.

Definition slot_order (l : list Z) : list Z :=
  foldl (flip slot_insert) [] (remove_dups l).

Global Program Instance slot_set_order : SetOrder := {| set_iter := slot_order |}.
Next Obligation.
  intros l. unfold slot_order.
  assert (∀ x k, slot_insert x k ≡ₚ x :: k) as Hins.
  { intros x k. induction k as [|y k IH]; simpl; [done|].
    case_decide; [done|]. rewrite IH. apply Permutation_swap. }
  assert (∀ k acc, foldl (flip slot_insert) acc k ≡ₚ k ++ acc) as Hfold.
  { induction k as [|x k IH]; intros acc; simpl; [done|].
    rewrite IH. unfold flip. rewrite Hins. by rewrite Permutation_middle. }
  rewrite Hfold, app_nil_r. apply NoDup_remove_dups.
Qed.
Next Obligation.
  intros l x. unfold slot_order.
  assert (∀ y k, slot_insert y k ≡ₚ y :: k) as Hins.
  { intros y k. induction k as [|z k IH]; simpl; [done|].
    case_decide; [done|]. rewrite IH. apply Permutation_swap. }
  assert (∀ k acc, foldl (flip slot_insert) acc k ≡ₚ k ++ acc) as Hfold.
  { induction k as [|y k IH]; intros acc; simpl; [done|].
    rewrite IH. unfold flip. rewrite Hins. by rewrite Permutation_middle. }
  rewrite Hfold, app_nil_r. apply elem_of_remove_dups.
Qed.

(** The same order read backwards: another order in which a set may be
    iterated.  It is not declared as an instance: the default set order stays
    [slot_set_order]. *)
Program Definition reverse_slot_set_order : SetOrder :=
  {| set_iter := λ l, reverse (slot_order l) |}.
Next Obligation.
  intros l. rewrite reverse_Permutation.
  apply (set_iter_NoDup (SetOrder := slot_set_order)).
Qed.
Next Obligation.
  intros l x. rewrite elem_of_reverse.
  apply (set_iter_elem (SetOrder := slot_set_order)).
Qed.

(** ** Specification vocabulary *)

(** [v] is the first item of [l] whose key is maximal: the items before it
    have a strictly smaller key, the items after it a key that is not
    larger. *)
Definition first_max {K} (lt : K → K → bool) (key : Z → res K)
    (l : list Z) (v : Z) : Prop :=
  ∃ l1 l2 kv, l = l1 ++ v :: l2 ∧ key v = Ok kv ∧
    (∀ w kw, w ∈ l1 → key w = Ok kw → lt kw kv = true) ∧
    (∀ w kw, w ∈ l2 → key w = Ok kw → lt kv kw = false).

(** Every pair of vertices of the graph that are adjacent one way are adjacent
    the other way too. *)
Definition symmetric (graph : Graph) : Prop :=
  ∀ u v nu nv, dict_get graph u = Some nu → dict_get graph v = Some nv →
    v ∈ nu → u ∈ nv.

(** The assignment [cs], read in insertion order, is a log of greedy steps:
    each vertex got the smallest colour free among the colours assigned
    before it to its neighbours. *)
Definition greedy_log (graph : Graph) (cs : Colors) : Prop :=
  ∀ pre v c post, cs = pre ++ (v, c) :: post →
    ∃ ns, dict_get graph v = Some ns ∧
          c = smallest_color (colors_among pre ns).

(** The saturation degree of [v] under the assignment [cs], with the
    fallback to the degree of line 58. *)
Definition dsat_value (graph : Graph) (cs : Colors) (v : Z) : nat :=
  match dict_get graph v with
  | Some ns =>
      if decide (colors_among cs ns = ∅) then length ns
      else size (colors_among cs ns)
  | None => 0
  end.

(** The states at the head of the main loop. *)
Inductive reachable `{SetOrder} (graph : Graph) : state → Prop :=
| reach_init st : init graph = Ok st → reachable graph st
| reach_step st st' :
    reachable graph st → uncolored st ≠ [] → step graph st = Ok st' →
    reachable graph st'.

(** Vertex [v] is given colour [c] by an assignment step of the run on
    [graph], taken when the assignment built so far is [pre]: either by the
    prologue (line 28), or by an iteration of the main loop (line 48). *)
Definition assigned_at `{SetOrder} (graph : Graph) (pre : Colors) (v : Z)
    (c : nat) : Prop :=
  (pre = [] ∧ ∃ st, init graph = Ok st ∧ colors st = [(v, c)]) ∨
  (∃ st st', reachable graph st ∧ uncolored st ≠ [] ∧
             next_vertex graph st = Ok v ∧ step graph st = Ok st' ∧
             colors st = pre ∧ colors st' = pre ++ [(v, c)]).

(** [u] lists [v] as a neighbour. *)
Definition adjacent (graph : Graph) (u v : Z) : Prop :=
  ∃ ns, dict_get graph u = Some ns ∧ v ∈ ns.

(** The edges of the symmetrized graph, and the edges listed both ways. *)
Definition symmetrized_edge (graph : Graph) (u v : Z) : Prop :=
  adjacent graph u v ∨ adjacent graph v u.

Definition mutual_edge (graph : Graph) (u v : Z) : Prop :=
  adjacent graph u v ∧ adjacent graph v u.

(** No two distinct coloured vertices joined by an edge share a colour. *)
Definition proper (edge : Z → Z → Prop) (cs : Colors) : Prop :=
  ∀ u v cu cv, edge u v → u ≠ v →
    dict_get cs u = Some cu → dict_get cs v = Some cv → cu ≠ cv.

(** [c] is the smallest positive integer outside [used]. *)
Definition least_free (used : gset nat) (c : nat) : Prop :=
  (1 ≤ c) ∧ (c ∉ used) ∧ (∀ c', 1 ≤ c' → c' < c → c' ∈ used).

(** The stored saturation degree of every uncoloured vertex is the one the
    current assignment determines. *)
Definition dsat_exact (graph : Graph) (st : state) : Prop :=
  ∀ v, v ∈ uncolored st →
    dsat st !! v = Some (dsat_value graph (colors st) v).

(** Some neighbour list names a vertex that is not in the graph, or the
    vertex itself. *)
Definition invalid_adjacency (graph : Graph) : Prop :=
  ∃ u ns v, dict_get graph u = Some ns ∧ v ∈ ns ∧
            (v = u ∨ v ∉ dict_keys graph).

(** Two graphs with the same vertices, in the same order, whose neighbour
    lists hold the same entries, in any order. *)
Definition same_adjacency (graph1 graph2 : Graph) : Prop :=
  Forall2 (λ p q, p.1 = q.1 ∧ p.2 ≡ₚ q.2) graph1 graph2.

(** What the multiselect of each vertex can return: some of the options it
    offers, each at most once. *)
Definition valid_selection (num_vertices : nat) (selected : Z → list Z)
    : Prop :=
  ∀ v, v ∈ vertices num_vertices →
    NoDup (selected v) ∧
    ∀ x, x ∈ selected v → x ∈ neighbors_options num_vertices v.

(** A selection on three vertices: 1 and 2 select each other, 3 selects
    nothing. *)
Definition pair_selection (v : Z) : list Z :=
  if decide (v = 1%Z) then [2%Z] else if decide (v = 2%Z) then [1%Z] else [].

(** Two states that differ at most in the order in which the set of
    uncoloured vertices is iterated. *)
Definition same_state (st1 st2 : state) : Prop :=
  colors st1 = colors st2 ∧ dsat st1 = dsat st2 ∧
  uncolored st1 ≡ₚ uncolored st2.

(** In no iteration of the run does another uncoloured vertex have the same
    pair (DSAT, degree) as the vertex that is coloured next. *)
Definition tie_free `{SetOrder} (graph : Graph) : Prop :=
  ∀ st v w nv nw, reachable graph st → next_vertex graph st = Ok v →
    w ∈ uncolored st → dsat st !! w = dsat st !! v →
    dict_get graph v = Some nv → dict_get graph w = Some nw →
    length nw = length nv → w = v.

(** The graphs of the worked examples. *)
Definition path4 : Graph := [(1, [2]); (2, [1; 3]); (3, [2; 4]); (4, [3])]%Z.
Definition one_way_edge : Graph := [(1, [2]); (2, [])]%Z.
Definition star_16_9 : Graph := [(3, [9; 16]); (9, [3]); (16, [3])]%Z.
Definition stale4 : Graph := [(1, [2; 3]); (2, [1]); (3, [1]); (4, [1; 2])]%Z.
Definition loop_and_dangling : Graph := [(1, [1; 2])]%Z.
Definition self_loop3 : Graph := [(1, [2; 3]); (2, [1; 2]); (3, [1])]%Z.

(** What every state at the head of the main loop satisfies: coloured and
    uncoloured vertices partition the vertex set, [dsat] has an entry for
    every vertex, and [colors] is a greedy log. *)
Record inv (graph : Graph) (st : state) : Prop := {
  inv_NoDup : NoDup (dict_keys (colors st) ++ uncolored st);
  inv_keys : ∀ v, v ∈ dict_keys (colors st) ++ uncolored st ↔ v ∈ dict_keys graph;
  inv_dsat : ∀ v, v ∈ dict_keys graph → is_Some (dsat st !! v);
  inv_log : greedy_log graph (colors st)
}.

(** * Properties *)

(** ** The exception monad *)

Lemma bind_Ok {A B} (m : res A) (f : A → res B) b :
  (m ≫= f) = Ok b ↔ ∃ a, m = Ok a ∧ f a = Ok b.
Proof.
  destruct m as [a|e]; simpl; split.
  - intros Hf. by exists a.
  - by intros (a' & [= <-] & Hf).
  - done.
  - by intros (a' & [=] & _).
Qed.

Lemma getitem_Ok {A} (d : dict A) k a : getitem d k = Ok a ↔ dict_get d k = Some a.
Proof. unfold getitem. destruct (dict_get d k); naive_solver. Qed.

Lemma map_getitem_Ok (m : gmap Z nat) k a : map_getitem m k = Ok a ↔ m !! k = Some a.
Proof. unfold map_getitem. destruct (m !! k); naive_solver. Qed.

(** ** Dictionaries *)

Section dict.
Context {A : Type}.
Implicit Types (d : dict A) (k : Z) (a : A).

Lemma dict_get_Some_elem d k a : dict_get d k = Some a → (k, a) ∈ d.
Proof.
  induction d as [|[k' a'] d IH]; simpl; [done|].
  case_decide as Hk.
  - intros [= ->]. subst. left.
  - intros Hd. right. by apply IH.
Qed.

Lemma dict_get_None d k : dict_get d k = None ↔ k ∉ dict_keys d.
Proof.
  unfold dict_keys. induction d as [|[k' a'] d IH]; simpl.
  - split; [intros _; apply not_elem_of_nil|done].
  - rewrite not_elem_of_cons. case_decide as Hk.
    + split; [done|]. intros [Hne _]. by destruct Hne.
    + rewrite IH. split; [by intros ?; split; [congruence|]|tauto].
Qed.

Lemma dict_get_is_Some d k : is_Some (dict_get d k) ↔ k ∈ dict_keys d.
Proof.
  rewrite <-not_eq_None_Some, dict_get_None.
  split; [apply dec_stable|tauto].
Qed.

Lemma dict_get_app d1 d2 k :
  dict_get (d1 ++ d2) k =
  match dict_get d1 k with Some a => Some a | None => dict_get d2 k end.
Proof.
  induction d1 as [|[k' a'] d1 IH]; simpl; [done|]. by case_decide.
Qed.

Lemma dict_set_fresh d k a : k ∉ dict_keys d → dict_set d k a = d ++ [(k, a)].
Proof.
  unfold dict_keys. induction d as [|[k' a'] d IH]; simpl; [done|].
  rewrite not_elem_of_cons. intros [Hne Hk].
  case_decide; [congruence|]. by rewrite IH.
Qed.

Lemma dict_keys_app d1 d2 : dict_keys (d1 ++ d2) = dict_keys d1 ++ dict_keys d2.
Proof. unfold dict_keys. apply fmap_app. Qed.

(** In a dictionary without repeated keys, the entry at any position is the
    one a lookup finds. *)
Lemma dict_get_middle d1 d2 k a :
  k ∉ dict_keys d1 → dict_get (d1 ++ (k, a) :: d2) k = Some a.
Proof.
  intros Hk. rewrite dict_get_app.
  apply dict_get_None in Hk. rewrite Hk. simpl. by rewrite decide_True.
Qed.

Lemma dict_split d k a :
  dict_get d k = Some a →
  ∃ d1 d2, d = d1 ++ (k, a) :: d2 ∧ k ∉ dict_keys d1.
Proof.
  induction d as [|[k' a'] d IH]; simpl; [done|].
  case_decide as Hk.
  - intros [= ->]. subst. exists [], d. split; [done|]. apply not_elem_of_nil.
  - intros (d1 & d2 & -> & Hd1)%IH.
    exists ((k', a') :: d1), d2. split; [done|].
    unfold dict_keys in *. simpl. rewrite not_elem_of_cons. done.
Qed.
End dict.

(** ** The smallest free colour *)

Lemma first_free_ge used fuel c : c ≤ first_free used fuel c.
Proof.
  revert c. induction fuel as [|fuel IH]; intros c; simpl; [lia|].
  case_decide; [|lia]. specialize (IH (S c)). lia.
Qed.

Lemma first_free_below used fuel c c' :
  c ≤ c' → c' < first_free used fuel c → c' ∈ used.
Proof.
  revert c. induction fuel as [|fuel IH]; intros c; simpl; [lia|].
  case_decide as Hc; [|lia].
  intros Hle Hlt. destruct (decide (c = c')) as [->|Hne]; [done|].
  apply (IH (S c)); lia.
Qed.

Lemma first_free_le used fuel c : first_free used fuel c ≤ c + fuel.
Proof.
  revert c. induction fuel as [|fuel IH]; intros c; simpl; [lia|].
  case_decide; [|lia]. specialize (IH (S c)). lia.
Qed.

Lemma size_filter_ge (used : gset nat) c :
  c ∈ used →
  size (filter (λ x, c ≤ x) used) = S (size (filter (λ x, S c ≤ x) used)).
Proof.
  intros Hc.
  assert (filter (λ x, c ≤ x) used = {[c]} ∪ filter (λ x, S c ≤ x) used) as ->.
  { apply set_eq. intros x.
    rewrite elem_of_union, !elem_of_filter, elem_of_singleton.
    split.
    - intros [? ?]. destruct (decide (x = c)); [by left|right; split; [lia|done] ].
    - intros [->|[? ?]]; split; (lia || done). }
  rewrite size_union, size_singleton; [lia|].
  apply disjoint_singleton_l. rewrite elem_of_filter. lia.
Qed.

Lemma size_filter_le (used : gset nat) c :
  size (filter (λ x, c ≤ x) used) ≤ size used.
Proof. apply subseteq_size. intros x. rewrite elem_of_filter. tauto. Qed.

(** When the scan is cut off by the fuel, every colour it went through is
    used, so there are at least [fuel] used colours. *)
Lemma first_free_used used fuel c :
  first_free used fuel c ∈ used → fuel ≤ size (filter (λ x, c ≤ x) used).
Proof.
  revert c. induction fuel as [|fuel IH]; intros c; simpl; [lia|].
  case_decide as Hc; [|done].
  intros Hin%IH. rewrite size_filter_ge by done. lia.
Qed.

Lemma first_free_count used fuel c :
  first_free used fuel c ≤ c + size (filter (λ x, c ≤ x) used).
Proof.
  revert c. induction fuel as [|fuel IH]; intros c; simpl; [lia|].
  case_decide as Hc; [|lia].
  rewrite size_filter_ge by done. specialize (IH (S c)). lia.
Qed.

Lemma smallest_color_free used : smallest_color used ∉ used.
Proof.
  unfold smallest_color. intros Hin%first_free_used.
  pose proof (size_filter_le used 1). lia.
Qed.

Lemma smallest_color_pos used : 1 ≤ smallest_color used.
Proof. apply first_free_ge. Qed.

Lemma smallest_color_least used c :
  1 ≤ c → c < smallest_color used → c ∈ used.
Proof. apply first_free_below. Qed.

Lemma smallest_color_le used : smallest_color used ≤ S (size used).
Proof.
  unfold smallest_color.
  pose proof (first_free_count used (S (size used)) 1).
  pose proof (size_filter_le used 1). lia.
Qed.

Lemma smallest_color_empty : smallest_color ∅ = 1.
Proof. reflexivity. Qed.

(** ** [max] returns the first maximal item *)

Section py_max_spec.
Context {K : Type} (lt : K → K → bool) (key : Z → res K).
Hypothesis lt_trans : ∀ a b c, lt a b = true → lt b c = true → lt a c = true.
Hypothesis lt_below : ∀ a b c, lt b a = false → lt b c = true → lt a c = true.

Lemma max_loop_spec l best bk :
  key best = Ok bk →
  (∀ w, w ∈ l → ∃ k, key w = Ok k) →
  ∃ v, max_loop lt key best bk l = Ok v ∧ first_max lt key (best :: l) v.
Proof.
  revert best bk. induction l as [|x l IH]; intros best bk Hbest Hkeys; simpl.
  - exists best. split; [done|]. exists [], [], bk.
    repeat split; [done|intros w kw Hw; by apply elem_of_nil in Hw..].
  - destruct (Hkeys x) as [k Hk]; [left|]. rewrite Hk. simpl.
    assert (∀ w, w ∈ l → ∃ k, key w = Ok k) as Hkeys'
      by (intros w Hw; apply Hkeys; by right).
    destruct (lt bk k) eqn:Hlt.
    + destruct (IH x k Hk Hkeys') as (v & Hv & l1 & l2 & kv & Hl & Hkv & H1 & H2).
      exists v. split; [done|]. exists (best :: l1), l2, kv.
      split; [by rewrite Hl|]. split; [done|]. split; [|done].
      intros w kw [->|Hw]%elem_of_cons Hkw; [|by eapply H1].
      assert (kw = bk) as -> by congruence.
      destruct l1 as [|y l1]; simplify_eq/=.
      * congruence.
      * eapply lt_trans; [done|]. eapply H1; [left|done].
    + destruct (IH best bk Hbest Hkeys') as (v & Hv & l1 & l2 & kv & Hl & Hkv & H1 & H2).
      exists v. split; [done|].
      destruct l1 as [|y l1]; simplify_eq/=.
      * exists [], (x :: l2), kv. split; [done|]. split; [done|].
        split; [intros w kw Hw; by apply elem_of_nil in Hw|].
        intros w kw [->|Hw]%elem_of_cons Hkw; [|by eapply H2].
        congruence.
      * exists (y :: x :: l1), l2, kv. split; [done|]. split; [done|].
        split; [|done].
        intros w kw Hw Hkw.
        apply elem_of_cons in Hw as [->|[->|Hw]%elem_of_cons].
        -- eapply H1; [left|done].
        -- assert (kw = k) as -> by congruence.
           eapply lt_below; [exact Hlt|]. eapply H1; [left|done].
        -- eapply H1; [by right|done].
Qed.

Lemma py_max_spec l :
  l ≠ [] → (∀ w, w ∈ l → ∃ k, key w = Ok k) →
  ∃ v, py_max lt key l = Ok v ∧ first_max lt key l v.
Proof.
  destruct l as [|x l]; [done|]. intros _ Hkeys. simpl.
  destruct (Hkeys x) as [k Hk]; [left|]. rewrite Hk. simpl.
  apply max_loop_spec; [done|]. intros w Hw. apply Hkeys. by right.
Qed.
End py_max_spec.

Lemma nat_ltb_trans a b c : (a <? b) = true → (b <? c) = true → (a <? c) = true.
Proof. rewrite !Nat.ltb_lt. lia. Qed.

Lemma nat_ltb_below a b c : (b <? a) = false → (b <? c) = true → (a <? c) = true.
Proof. rewrite Nat.ltb_ge, !Nat.ltb_lt. lia. Qed.

Lemma pair_lt_spec a b :
  pair_lt a b = true ↔ a.1 < b.1 ∨ (a.1 = b.1 ∧ a.2 < b.2).
Proof.
  unfold pair_lt.
  rewrite orb_true_iff, andb_true_iff, !Nat.ltb_lt, Nat.eqb_eq. done.
Qed.

Lemma pair_lt_false a b :
  pair_lt a b = false ↔ b.1 < a.1 ∨ (a.1 = b.1 ∧ b.2 ≤ a.2).
Proof.
  rewrite <-not_true_iff_false, pair_lt_spec. lia.
Qed.

Lemma pair_lt_trans a b c :
  pair_lt a b = true → pair_lt b c = true → pair_lt a c = true.
Proof. rewrite !pair_lt_spec. lia. Qed.

Lemma pair_lt_below a b c :
  pair_lt b a = false → pair_lt b c = true → pair_lt a c = true.
Proof. rewrite pair_lt_false, !pair_lt_spec. lia. Qed.

Lemma first_max_elem {K} (lt : K → K → bool) key l v :
  first_max lt key l v → v ∈ l.
Proof. intros (l1 & l2 & kv & -> & _). set_solver. Qed.

(** ** The degree table *)

Lemma degree_of_lookup graph v :
  NoDup (dict_keys graph) →
  degree_of graph !! v = length <$> dict_get graph v.
Proof.
  unfold degree_of.
  assert (∀ (m : gmap Z nat) (g : Graph), NoDup (dict_keys g) →
    foldl (λ m p, <[p.1 := length p.2]> m) m g !! v =
    match dict_get g v with Some ns => Some (length ns) | None => m !! v end)
    as Hgen.
  { intros m g. revert m. induction g as [|[k ns] g IH]; intros m Hnd; [done|].
    unfold dict_keys in *. simpl in *. apply NoDup_cons in Hnd as [Hk Hnd].
    rewrite IH by done. case_decide as Heq.
    - subst. apply (dict_get_None g v) in Hk. rewrite Hk.
      apply lookup_insert_eq.
    - destruct (dict_get g v); [done|]. by apply lookup_insert_ne. }
  intros Hnd. rewrite Hgen by done. by destruct (dict_get graph v).
Qed.

(** ** The [dsat] updates *)

Lemma for_each_cons {A S} (f : S → A → res S) s a l :
  for_each f s (a :: l) = (f s a ≫= λ s', for_each f s' l).
Proof. done. Qed.

Lemma bind_Ok_l {A B} (a : A) (f : A → res B) : (Ok a ≫= f) = f a.
Proof. done. Qed.

Lemma for_each_init_dsat (degree : gmap Z nat) (l : list Z) (m : gmap Z nat) :
  (∀ v, v ∈ l → is_Some (degree !! v)) →
  ∃ m', for_each (λ dsat node, d ← map_getitem degree node;
                               Ok (<[node := d]> dsat)) m l = Ok m' ∧
        ∀ v, m' !! v = if decide (v ∈ l) then degree !! v else m !! v.
Proof.
  revert m. induction l as [|x l IH]; intros m Hdeg.
  - exists m. split; [done|]. intros v.
    case_decide as Hv; [by apply elem_of_nil in Hv|done].
  - destruct (Hdeg x) as [d Hd]; [left|].
    destruct (IH (<[x := d]> m)) as (m' & Hm' & Hlook).
    { intros v Hv. apply Hdeg. by right. }
    exists m'. split.
    { rewrite for_each_cons. cbv beta.
      by rewrite (proj2 (map_getitem_Ok _ _ _) Hd). }
    intros v. rewrite Hlook. rewrite (lookup_insert m x v d).
    repeat case_decide; rewrite ?elem_of_cons in *; naive_solver.
Qed.

Lemma update_first_Ok graph cs unc (m : gmap Z nat) x :
  (∀ v, v ∈ unc → v ∈ dict_keys graph) →
  update_first graph cs unc m x =
  Ok (if decide (x ∈ unc)
      then <[x := from_option (λ nx, size (colors_among cs nx)) 0
                              (dict_get graph x)]> m
      else m).
Proof.
  intros Hunc. unfold update_first.
  destruct (decide (x ∈ unc)) as [Hx|Hx]; [|done].
  destruct (proj2 (dict_get_is_Some graph x) (Hunc x Hx)) as [nx Hnx].
  unfold getitem. by rewrite Hnx.
Qed.

Lemma for_each_update_first graph cs unc ns (m : gmap Z nat) :
  (∀ v, v ∈ unc → v ∈ dict_keys graph) →
  ∃ m', for_each (update_first graph cs unc) m ns = Ok m' ∧
    ∀ v, m' !! v =
      if decide (v ∈ ns ∧ v ∈ unc) then
        Some (from_option (λ nv, size (colors_among cs nv)) 0 (dict_get graph v))
      else m !! v.
Proof.
  intros Hunc. revert m. induction ns as [|x ns IH]; intros m.
  - exists m. split; [done|]. intros v.
    case_decide as Hv; [|done]. destruct Hv as [[]%elem_of_nil _].
  - rewrite for_each_cons, update_first_Ok, bind_Ok_l by done.
    destruct (decide (x ∈ unc)) as [Hx|Hx].
    + destruct (IH (<[x := from_option (λ nx, size (colors_among cs nx)) 0
                                       (dict_get graph x)]> m))
        as (m' & Hm' & Hlook).
      exists m'. split; [done|]. intros v. rewrite Hlook.
      rewrite (lookup_insert m x v).
      repeat case_decide; subst; rewrite ?elem_of_cons in *; naive_solver.
    + destruct (IH m) as (m' & Hm' & Hlook).
      exists m'. split; [done|]. intros v. rewrite Hlook.
      repeat case_decide; rewrite ?elem_of_cons in *; naive_solver.
Qed.

Lemma update_dsat_Ok graph cs unc (m : gmap Z nat) x :
  NoDup (dict_keys graph) →
  (∀ v, v ∈ unc → v ∈ dict_keys graph) →
  update_dsat graph (degree_of graph) cs unc m x =
  Ok (if decide (x ∈ unc) then <[x := dsat_value graph cs x]> m else m).
Proof.
  intros Hnd Hunc. unfold update_dsat.
  destruct (decide (x ∈ unc)) as [Hx|Hx]; [|done].
  destruct (proj2 (dict_get_is_Some graph x) (Hunc x Hx)) as [nx Hnx].
  unfold getitem, dsat_value. rewrite Hnx, bind_Ok_l.
  case_decide; [|done].
  unfold map_getitem. by rewrite degree_of_lookup, Hnx by done.
Qed.

Lemma for_each_update_dsat graph cs unc ns (m : gmap Z nat) :
  NoDup (dict_keys graph) →
  (∀ v, v ∈ unc → v ∈ dict_keys graph) →
  ∃ m', for_each (update_dsat graph (degree_of graph) cs unc) m ns = Ok m' ∧
    ∀ v, m' !! v =
      if decide (v ∈ ns ∧ v ∈ unc) then Some (dsat_value graph cs v)
      else m !! v.
Proof.
  intros Hnd Hunc. revert m. induction ns as [|x ns IH]; intros m.
  - exists m. split; [done|]. intros v.
    case_decide as Hv; [|done]. destruct Hv as [[]%elem_of_nil _].
  - rewrite for_each_cons, update_dsat_Ok, bind_Ok_l by done.
    destruct (decide (x ∈ unc)) as [Hx|Hx].
    + destruct (IH (<[x := dsat_value graph cs x]> m)) as (m' & Hm' & Hlook).
      exists m'. split; [done|]. intros v. rewrite Hlook.
      rewrite (lookup_insert m x v).
      repeat case_decide; subst; rewrite ?elem_of_cons in *; naive_solver.
    + destruct (IH m) as (m' & Hm' & Hlook).
      exists m'. split; [done|]. intros v. rewrite Hlook.
      repeat case_decide; rewrite ?elem_of_cons in *; naive_solver.
Qed.

(** ** Removing an element from a set *)

Lemma filter_ne_id (l : list Z) v : v ∉ l → filter (λ y, y ≠ v) l = l.
Proof.
  induction l as [|y l IH]; [done|].
  intros [Hne Hl]%not_elem_of_cons.
  rewrite filter_cons_True by done. f_equal. by apply IH.
Qed.

Lemma filter_ne_perm (l : list Z) v :
  NoDup l → v ∈ l → v :: filter (λ y, y ≠ v) l ≡ₚ l.
Proof.
  induction l as [|x l IH]; intros Hnd Hv; [by apply elem_of_nil in Hv|].
  apply NoDup_cons in Hnd as [Hx Hnd].
  destruct (decide (x = v)) as [->|Hne].
  - rewrite filter_cons_False by (intros ?; done).
    by rewrite filter_ne_id.
  - rewrite filter_cons_True by done.
    apply elem_of_cons in Hv as [->|Hv]; [done|].
    rewrite Permutation_swap. f_equiv. by apply IH.
Qed.

Lemma filter_ne_split (l1 l2 : list Z) v :
  NoDup (l1 ++ v :: l2) → filter (λ y, y ≠ v) (l1 ++ v :: l2) = l1 ++ l2.
Proof.
  intros Hnd. apply NoDup_app in Hnd as (_ & Hdisj & [Hv _]%NoDup_cons).
  rewrite filter_app, filter_cons_False by (intros ?; done).
  rewrite !filter_ne_id; [done..|]. intros Hin. eapply Hdisj; [done|left].
Qed.

Lemma set_remove_Ok (l : list Z) v :
  v ∈ l → set_remove l v = Ok (filter (λ y, y ≠ v) l).
Proof. intros Hv. unfold set_remove. by rewrite decide_True. Qed.

(** ** Colours among neighbours *)

Lemma elem_of_colors_among cs ns c :
  c ∈ colors_among cs ns ↔ ∃ n, n ∈ ns ∧ dict_get cs n = Some c.
Proof.
  unfold colors_among. rewrite elem_of_list_to_set, list_elem_of_omap. done.
Qed.

Lemma colors_among_nil ns : colors_among [] ns = ∅.
Proof.
  apply set_eq. intros c. rewrite elem_of_colors_among.
  split; [by intros (n & _ & [=])|]. by intros ?%not_elem_of_empty.
Qed.

Lemma size_list_to_set_le (l : list nat) :
  size (list_to_set l : gset nat) ≤ length l.
Proof.
  induction l as [|x l IH]; [by rewrite list_to_set_nil, size_empty|].
  rewrite list_to_set_cons, size_union_alt, size_singleton.
  assert (size (list_to_set l ∖ {[x]} : gset nat)
          ≤ size (list_to_set l : gset nat)) as Hsub.
  { apply subseteq_size. intros c. rewrite elem_of_difference. tauto. }
  simpl. lia.
Qed.

Lemma colors_among_size cs ns : size (colors_among cs ns) ≤ length ns.
Proof.
  unfold colors_among. etrans; [apply size_list_to_set_le|].
  induction ns as [|n ns IH]; [done|].
  change (omap (dict_get cs) (n :: ns)) with
    (match dict_get cs n with
     | Some c => c :: omap (dict_get cs) ns
     | None => omap (dict_get cs) ns
     end).
  destruct (dict_get cs n); simpl; lia.
Qed.

(** ** The prologue *)

Lemma init_dsat_eq graph :
  NoDup (dict_keys graph) →
  for_each (λ dsat node, d ← map_getitem (degree_of graph) node;
                         Ok (<[node := d]> dsat)) ∅ (dict_keys graph)
  = Ok (degree_of graph).
Proof.
  intros Hnd.
  destruct (for_each_init_dsat (degree_of graph) (dict_keys graph) ∅)
    as (m & -> & Hm).
  { intros v Hv%dict_get_is_Some. rewrite degree_of_lookup by done.
    by apply fmap_is_Some. }
  f_equal. apply map_eq. intros v. rewrite Hm. case_decide as Hv; [done|].
  apply dict_get_None in Hv.
  by rewrite lookup_empty, degree_of_lookup, Hv.
Qed.

Lemma init_spec `{SetOrder} graph :
  NoDup (dict_keys graph) → graph ≠ [] →
  ∃ st v ns,
    init graph = Ok st ∧
    first_max Nat.ltb (map_getitem (degree_of graph)) (dict_keys graph) v ∧
    dict_get graph v = Some ns ∧
    colors st = [(v, 1)] ∧
    uncolored st = filter (λ y, y ≠ v) (set_iter (dict_keys graph)) ∧
    ∀ w, dsat st !! w =
      if decide (w ∈ ns ∧ w ∈ uncolored st) then
        Some (from_option (λ nw, size (colors_among [(v, 1)] nw)) 0
                          (dict_get graph w))
      else degree_of graph !! w.
Proof.
  intros Hnd Hne. unfold init. rewrite init_dsat_eq, bind_Ok_l by done.
  destruct (py_max_spec Nat.ltb (map_getitem (degree_of graph))
              nat_ltb_trans nat_ltb_below (dict_keys graph))
    as (v & -> & Hmax).
  { by destruct graph. }
  { intros w Hw%dict_get_is_Some. destruct Hw as [nw Hnw].
    exists (length nw). apply map_getitem_Ok.
    by rewrite degree_of_lookup, Hnw. }
  rewrite bind_Ok_l.
  pose proof (first_max_elem _ _ _ _ Hmax) as Hv.
  rewrite set_remove_Ok, bind_Ok_l by (by apply set_iter_elem).
  destruct (proj2 (dict_get_is_Some graph v) Hv) as [ns Hns].
  rewrite (proj2 (getitem_Ok _ _ _) Hns), bind_Ok_l.
  destruct (for_each_update_first graph (dict_set [] v 1)
              (filter (λ y, y ≠ v) (set_iter (dict_keys graph))) ns
              (degree_of graph)) as (m & -> & Hm).
  { intros w [_ Hw]%list_elem_of_filter. by apply (set_iter_elem (dict_keys graph) w). }
  rewrite bind_Ok_l. eexists _, v, ns. split; [done|]. simpl.
  repeat split; done.
Qed.

(** ** One iteration of the main loop *)

Lemma step_spec graph st :
  NoDup (dict_keys graph) → inv graph st → uncolored st ≠ [] →
  ∃ st' v ns,
    step graph st = Ok st' ∧
    next_vertex graph st = Ok v ∧
    first_max pair_lt (priority (degree_of graph) (dsat st)) (uncolored st) v ∧
    dict_get graph v = Some ns ∧
    colors st' =
      colors st ++ [(v, smallest_color (colors_among (colors st) ns))] ∧
    uncolored st' = filter (λ y, y ≠ v) (uncolored st) ∧
    ∀ w, dsat st' !! w =
      if decide (w ∈ ns ∧ w ∈ uncolored st') then
        Some (dsat_value graph (colors st') w)
      else dsat st !! w.
Proof.
  intros Hnd [Hnodup Hkeys Hdsat Hlog] Hne. unfold step, next_vertex.
  assert (∀ w, w ∈ uncolored st → w ∈ dict_keys graph) as Hunc.
  { intros w Hw. apply Hkeys, elem_of_app. by right. }
  destruct (py_max_spec pair_lt (priority (degree_of graph) (dsat st))
              pair_lt_trans pair_lt_below (uncolored st) Hne)
    as (v & Hnext & Hmax).
  { intros w Hw%Hunc. destruct (Hdsat w Hw) as [s Hs].
    apply dict_get_is_Some in Hw as [nw Hnw].
    exists (s, length nw). unfold priority.
    rewrite (proj2 (map_getitem_Ok _ _ _) Hs), bind_Ok_l.
    unfold map_getitem. by rewrite degree_of_lookup, Hnw. }
  rewrite Hnext, bind_Ok_l.
  pose proof (first_max_elem _ _ _ _ Hmax) as Hv.
  destruct (proj2 (dict_get_is_Some graph v) (Hunc v Hv)) as [ns Hns].
  rewrite (proj2 (getitem_Ok _ _ _) Hns), bind_Ok_l.
  rewrite set_remove_Ok, !bind_Ok_l by done.
  assert (v ∉ dict_keys (colors st)) as Hfresh.
  { intros Hin. apply NoDup_app in Hnodup as (_ & Hdisj & _).
    by eapply Hdisj. }
  rewrite dict_set_fresh by done.
  destruct (for_each_update_dsat graph
              (colors st ++ [(v, smallest_color (colors_among (colors st) ns))])
              (filter (λ y, y ≠ v) (uncolored st)) ns (dsat st) Hnd)
    as (m & -> & Hm).
  { intros w [_ Hw]%list_elem_of_filter. by apply Hunc. }
  rewrite bind_Ok_l. eexists _, v, ns. split; [done|]. simpl.
  repeat split; done.
Qed.

(** ** The invariant of the main loop *)

Lemma greedy_log_single graph v ns :
  dict_get graph v = Some ns → greedy_log graph [(v, 1)].
Proof.
  intros Hns pre v' c' post Heq.
  destruct pre as [|p pre]; simplify_eq/=.
  - exists ns. by rewrite colors_among_nil.
  - by destruct pre.
Qed.

Lemma greedy_log_snoc graph cs v ns :
  greedy_log graph cs → dict_get graph v = Some ns →
  greedy_log graph (cs ++ [(v, smallest_color (colors_among cs ns))]).
Proof.
  intros Hlog Hns pre v' c' post Heq.
  destruct post as [|p post _] using rev_ind.
  - apply app_inj_tail in Heq as [<- [= <- <-]]. eauto.
  - rewrite app_comm_cons, app_assoc in Heq.
    apply app_inj_tail in Heq as [-> _]. by eapply Hlog.
Qed.

Lemma init_nil `{SetOrder} : init [] = Raise ValueError.
Proof. done. Qed.

Lemma init_inv `{SetOrder} graph st :
  NoDup (dict_keys graph) → init graph = Ok st → inv graph st.
Proof.
  intros Hnd Hinit.
  destruct (decide (graph = [])) as [->|Hne]; [by rewrite init_nil in Hinit|].
  destruct (init_spec graph Hnd Hne)
    as (st0 & v & ns & Hst0 & Hmax & Hns & Hcs & Hunc & Hdsat).
  assert (st0 = st) as -> by congruence. clear Hinit Hst0.
  assert (v ∈ set_iter (dict_keys graph)) as Hv.
  { apply set_iter_elem. by eapply first_max_elem. }
  assert (v :: uncolored st ≡ₚ set_iter (dict_keys graph)) as Hperm.
  { rewrite Hunc. apply filter_ne_perm; [apply set_iter_NoDup|done]. }
  split.
  - rewrite Hcs. simpl. rewrite Hperm. apply set_iter_NoDup.
  - intros w. rewrite Hcs. simpl. rewrite Hperm. apply set_iter_elem.
  - intros w Hw. rewrite Hdsat. case_decide; [done|].
    apply dict_get_is_Some in Hw as [nw Hnw].
    by rewrite degree_of_lookup, Hnw.
  - rewrite Hcs. by eapply greedy_log_single.
Qed.

Lemma step_inv graph st st' :
  NoDup (dict_keys graph) → inv graph st → uncolored st ≠ [] →
  step graph st = Ok st' → inv graph st'.
Proof.
  intros Hnd Hinv Hne Hstep.
  destruct (step_spec graph st Hnd Hinv Hne)
    as (st0 & v & ns & Hst0 & _ & Hmax & Hns & Hcs & Hunc & Hdsat).
  assert (st0 = st') as -> by congruence. clear Hstep Hst0.
  destruct Hinv as [Hnodup Hkeys Hdom Hlog].
  assert (dict_keys (colors st') ++ uncolored st'
          ≡ₚ dict_keys (colors st) ++ uncolored st) as Hperm.
  { rewrite Hcs, Hunc, dict_keys_app. simpl. rewrite <-app_assoc. simpl.
    f_equiv. apply filter_ne_perm; [|by eapply first_max_elem].
    by apply NoDup_app in Hnodup as (_ & _ & ?). }
  split.
  - by rewrite Hperm.
  - intros w. by rewrite Hperm.
  - intros w Hw. rewrite Hdsat. case_decide; [done|]. by apply Hdom.
  - rewrite Hcs. by apply greedy_log_snoc.
Qed.

Lemma reachable_inv `{SetOrder} graph st :
  NoDup (dict_keys graph) → reachable graph st → inv graph st.
Proof.
  intros Hnd. induction 1 as [st Hinit|st st' _ IH Hne Hstep].
  - by apply init_inv.
  - by eapply step_inv.
Qed.

(** ** The main loop runs to completion *)

Lemma step_length graph st st' :
  NoDup (dict_keys graph) → inv graph st → uncolored st ≠ [] →
  step graph st = Ok st' → S (length (uncolored st')) = length (uncolored st).
Proof.
  intros Hnd Hinv Hne Hstep.
  destruct (step_spec graph st Hnd Hinv Hne)
    as (st0 & v & ns & Hst0 & _ & Hmax & Hns & Hcs & Hunc & Hdsat).
  assert (st0 = st') as -> by congruence.
  rewrite Hunc. change (S (length ?l)) with (length (v :: l)).
  apply Permutation_length, filter_ne_perm; [|by eapply first_max_elem].
  destruct Hinv as [Hnodup _ _ _].
  by apply NoDup_app in Hnodup as (_ & _ & ?).
Qed.

Lemma loop_total `{SetOrder} graph fuel st :
  NoDup (dict_keys graph) → reachable graph st →
  length (uncolored st) ≤ fuel →
  ∃ st', loop fuel graph st = Ok (colors st') ∧
         reachable graph st' ∧ uncolored st' = [].
Proof.
  intros Hnd. revert st. induction fuel as [|fuel IH]; intros st Hreach Hlen.
  - destruct (uncolored st) eqn:Hunc; [|simpl in Hlen; lia].
    exists st. simpl. by rewrite Hunc.
  - destruct (uncolored st) as [|x unc] eqn:Hunc.
    { exists st. simpl. by rewrite Hunc. }
    assert (uncolored st ≠ []) as Hne by (by rewrite Hunc).
    pose proof (reachable_inv graph st Hnd Hreach) as Hinv.
    destruct (step_spec graph st Hnd Hinv Hne) as (st1 & _ & _ & Hstep & _).
    pose proof (step_length graph st st1 Hnd Hinv Hne Hstep) as Hlen1.
    destruct (IH st1) as (st' & Hloop & Hreach' & Hdone).
    { by eapply reach_step. }
    { rewrite Hunc in Hlen1. simpl in *. lia. }
    exists st'. simpl. rewrite Hunc, Hstep. done.
Qed.

Lemma loop_out_of_fuel `{SetOrder} graph fuel st :
  NoDup (dict_keys graph) → reachable graph st →
  fuel < length (uncolored st) → loop fuel graph st = Raise OutOfFuel.
Proof.
  intros Hnd. revert st. induction fuel as [|fuel IH]; intros st Hreach Hlen.
  - destruct (uncolored st) eqn:Hunc; [simpl in Hlen; lia|].
    simpl. by rewrite Hunc.
  - destruct (uncolored st) as [|x unc] eqn:Hunc; [simpl in Hlen; lia|].
    assert (uncolored st ≠ []) as Hne by (by rewrite Hunc).
    pose proof (reachable_inv graph st Hnd Hreach) as Hinv.
    destruct (step_spec graph st Hnd Hinv Hne) as (st1 & _ & _ & Hstep & _).
    pose proof (step_length graph st st1 Hnd Hinv Hne Hstep) as Hlen1.
    simpl. rewrite Hunc, Hstep, bind_Ok_l. apply IH.
    + by eapply reach_step.
    + rewrite Hunc in Hlen1. simpl in *. lia.
Qed.

Lemma init_length `{SetOrder} graph st :
  NoDup (dict_keys graph) → init graph = Ok st →
  S (length (uncolored st)) = length graph.
Proof.
  intros Hnd Hinit. destruct (init_inv graph st Hnd Hinit) as [Hnodup Hkeys _ _].
  destruct (decide (graph = [])) as [->|Hne]; [by rewrite init_nil in Hinit|].
  destruct (init_spec graph Hnd Hne) as (st0 & v & ns & Hst0 & _ & _ & Hcs & _).
  assert (st0 = st) as -> by congruence. rewrite Hcs in Hnodup, Hkeys.
  change (S (length (uncolored st)))
    with (length (dict_keys [(v, 1)] ++ uncolored st)).
  transitivity (length (dict_keys graph)); [|apply length_fmap].
  apply Permutation_length, NoDup_Permutation; done.
Qed.

(** A run of [dsatur] ends in a state at the head of the main loop in which
    no vertex is left uncoloured. *)
Lemma dsatur_fuel_total `{SetOrder} graph fuel :
  NoDup (dict_keys graph) → graph ≠ [] → length graph ≤ S fuel →
  ∃ st, dsatur_fuel fuel graph = Ok (colors st) ∧
        reachable graph st ∧ uncolored st = [].
Proof.
  intros Hnd Hne Hfuel. unfold dsatur_fuel.
  destruct (init_spec graph Hnd Hne) as (st0 & _ & _ & Hinit & _).
  rewrite Hinit, bind_Ok_l. apply loop_total; [done|by apply reach_init|].
  pose proof (init_length graph st0 Hnd Hinit). lia.
Qed.

Lemma dsatur_total `{SetOrder} graph :
  NoDup (dict_keys graph) → graph ≠ [] →
  ∃ st, dsatur graph = Ok (colors st) ∧ reachable graph st ∧ uncolored st = [].
Proof. intros Hnd Hne. apply dsatur_fuel_total; [done..|lia]. Qed.

(** The facts about the returned assignment everything else is derived
    from. *)
Lemma dsatur_result `{SetOrder} graph :
  NoDup (dict_keys graph) → graph ≠ [] →
  ∃ cs, dsatur graph = Ok cs ∧ NoDup (dict_keys cs) ∧
        (∀ v, v ∈ dict_keys cs ↔ v ∈ dict_keys graph) ∧
        greedy_log graph cs.
Proof.
  intros Hnd Hne.
  destruct (dsatur_total graph Hnd Hne) as (st & Hrun & Hreach & Hdone).
  destruct (reachable_inv graph st Hnd Hreach) as [Hnodup Hkeys _ Hlog].
  rewrite Hdone, app_nil_r in Hnodup. 
  exists (colors st). repeat split; try done.
  - intros Hv. apply Hkeys. rewrite Hdone, app_nil_r. done.
  - intros Hv. apply Hkeys in Hv. by rewrite Hdone, app_nil_r in Hv.
Qed.

Lemma dsatur_nil `{SetOrder} : dsatur [] = Raise ValueError.
Proof. done. Qed.

Lemma dsatur_Ok_nonempty `{SetOrder} graph cs : dsatur graph = Ok cs → graph ≠ [].
Proof. intros Hrun ->. by rewrite dsatur_nil in Hrun. Qed.

Lemma smallest_color_least_free used : least_free used (smallest_color used).
Proof.
  split; [apply smallest_color_pos|].
  split; [apply smallest_color_free|apply smallest_color_least].
Qed.

(** ** Consequences of the greedy log *)

Lemma greedy_log_proper graph cs :
  greedy_log graph cs → proper (mutual_edge graph) cs.
Proof.
  intros Hlog u v cu cv [(nu & Hnu & Hv) (nv & Hnv & Hu)] Hne Hcu Hcv.
  destruct (dict_split cs u cu Hcu) as (d1 & d2 & -> & Hfresh).
  rewrite dict_get_app in Hcv. destruct (dict_get d1 v) as [c|] eqn:Hd1.
  - (* [v] was coloured before [u] *)
    simplify_eq. destruct (Hlog d1 u cu d2 eq_refl) as (nu' & Hnu' & ->).
    assert (nu' = nu) as -> by congruence.
    intros Heq. apply (smallest_color_free (colors_among d1 nu)).
    rewrite Heq. apply elem_of_colors_among. eauto.
  - (* [u] was coloured before [v] *)
    simpl in Hcv. rewrite decide_False in Hcv by done.
    destruct (dict_split d2 v cv Hcv) as (e1 & e2 & -> & _).
    destruct (Hlog (d1 ++ (u, cu) :: e1) v cv e2) as (nv' & Hnv' & ->).
    { by rewrite <-app_assoc. }
    assert (nv' = nv) as -> by congruence.
    intros Heq.
    apply (smallest_color_free (colors_among (d1 ++ (u, cu) :: e1) nv)).
    rewrite <-Heq. apply elem_of_colors_among. exists u. split; [done|].
    by apply dict_get_middle.
Qed.

(** ** Every entry of [colors] records an assignment step *)

Lemma reachable_history `{SetOrder} graph st pre v c post :
  NoDup (dict_keys graph) → reachable graph st →
  colors st = pre ++ (v, c) :: post → assigned_at graph pre v c.
Proof.
  intros Hnd Hreach. revert pre v c post.
  induction Hreach as [st Hinit|st st' Hreach IH Hne Hstep];
    intros pre v c post Hcs.
  - destruct (decide (graph = [])) as [->|Hg]; [by rewrite init_nil in Hinit|].
    destruct (init_spec graph Hnd Hg) as (st0 & f & ns & Hst0 & _ & _ & Hf & _).
    assert (st0 = st) as -> by congruence. rewrite Hf in Hcs.
    destruct pre as [|p pre]; simplify_eq/=; [|by destruct pre].
    left. split; [done|]. by exists st.
  - pose proof (reachable_inv graph st Hnd Hreach) as Hinv.
    destruct (step_spec graph st Hnd Hinv Hne)
      as (st0 & x & ns & Hst0 & Hnext & _ & _ & Hcs' & _).
    assert (st0 = st') as -> by congruence. rewrite Hcs' in Hcs.
    destruct post as [|p post _] using rev_ind.
    + apply app_inj_tail in Hcs as [<- [= <- <-]].
      right. by exists st, st'.
    + rewrite app_comm_cons, app_assoc in Hcs.
      apply app_inj_tail in Hcs as [Hcs _]. by eapply IH.
Qed.

(** ** The stored saturation degrees on symmetric graphs *)

Lemma dict_get_snoc_ne {A} (d : dict A) x a k :
  k ≠ x → dict_get (d ++ [(x, a)]) k = dict_get d k.
Proof.
  intros Hne. rewrite dict_get_app. destruct (dict_get d k); [done|].
  simpl. by rewrite decide_False.
Qed.

Lemma colors_among_snoc_other cs x c ns :
  x ∉ ns → colors_among (cs ++ [(x, c)]) ns = colors_among cs ns.
Proof.
  intros Hx. apply set_eq. intros c'. rewrite !elem_of_colors_among.
  split; intros (n & Hn & Hget); exists n; (split; [done|]).
  - rewrite dict_get_snoc_ne in Hget; [done|]. by intros ->.
  - rewrite dict_get_snoc_ne; [done|]. by intros ->.
Qed.

Lemma dsat_value_snoc_other graph cs x c v nv :
  dict_get graph v = Some nv → x ∉ nv →
  dsat_value graph (cs ++ [(x, c)]) v = dsat_value graph cs v.
Proof.
  intros Hnv Hx. unfold dsat_value.
  by rewrite Hnv, colors_among_snoc_other.
Qed.

Lemma reachable_dsat `{SetOrder} graph st v :
  symmetric graph → NoDup (dict_keys graph) → reachable graph st →
  v ∈ uncolored st → dsat st !! v = Some (dsat_value graph (colors st) v).
Proof.
  intros Hsym Hnd Hreach. revert v.
  induction Hreach as [st Hinit|st st' Hreach IH Hne Hstep]; intros v Hv.
  - destruct (decide (graph = [])) as [->|Hg]; [by rewrite init_nil in Hinit|].
    destruct (init_spec graph Hnd Hg)
      as (st0 & f & ns & Hst0 & _ & Hns & Hcs & Hunc & Hdsat).
    assert (st0 = st) as -> by congruence.
    assert (v ∈ dict_keys graph ∧ v ≠ f) as [Hkey Hvf].
    { rewrite Hunc in Hv. apply list_elem_of_filter in Hv as [? Hv].
      split; [|done]. by apply (set_iter_elem (dict_keys graph) v). }
    apply dict_get_is_Some in Hkey as [nv Hnv].
    rewrite Hdsat, Hcs. unfold dsat_value. rewrite Hnv. simpl.
    destruct (decide (v ∈ ns ∧ v ∈ uncolored st)) as [[Hin _]|Hout].
    + (* a neighbour of the first vertex: the first vertex is one of its
         coloured neighbours *)
      rewrite decide_False; [done|].
      assert (1 ∈ colors_among [(f, 1)] nv) as Hone; [|set_solver].
      apply elem_of_colors_among. exists f. split; [by eapply Hsym|].
      simpl. by rewrite decide_True.
    + (* not a neighbour of the first vertex: no coloured neighbour *)
      rewrite decide_True; [by rewrite degree_of_lookup, Hnv|].
      apply set_eq. intros c. rewrite elem_of_colors_among.
      split; [|by intros ?%not_elem_of_empty].
      intros (n & Hn & Hget). simpl in Hget. case_decide; [|done].
      subst n. destruct Hout. split; [by eapply Hsym|done].
  - pose proof (reachable_inv graph st Hnd Hreach) as Hinv.
    destruct (step_spec graph st Hnd Hinv Hne)
      as (st0 & x & nx & Hst0 & _ & Hmax & Hnx & Hcs & Hunc & Hdsat).
    assert (st0 = st') as -> by congruence.
    rewrite Hdsat. case_decide as Hcase; [done|].
    assert (v ∈ uncolored st ∧ v ≠ x) as [Hv' Hvx].
    { rewrite Hunc in Hv. by apply list_elem_of_filter in Hv as [? ?]. }
    assert (v ∈ dict_keys graph) as [nv Hnv]%dict_get_is_Some.
    { destruct Hinv as [_ Hkeys _ _]. apply Hkeys, elem_of_app. by right. }
    rewrite Hcs, (dsat_value_snoc_other _ _ _ _ _ nv Hnv); [by apply IH|].
    intros Hin. destruct Hcase. split; [by eapply Hsym|done].
Qed.

(** * The claims *)

(** ** C1: proper colouring *)

(** C1, as stated, fails: on the graph [{1: [2], 2: []}], whose symmetrized
    graph has the edge (1, 2), [dsatur] returns [{1: 1, 2: 1}].  Vertex 2
    does not list vertex 1, so colour 1 is free for it. *)
Lemma proper_symmetrized_counterexample :
  ∃ cs, dsatur one_way_edge = Ok cs ∧
        ¬ proper (symmetrized_edge one_way_edge) cs.
Proof.
  exists [(1%Z, 1); (2%Z, 1)]. split; [by vm_compute|].
  intros Hproper. apply (Hproper 1%Z 2%Z 1 1); try done.
  left. exists [2%Z]. split; [done|]. by left.
Qed.

(** C1, amended: for every graph [dsatur] accepts, two distinct vertices that
    list each other as neighbours get different colours; when the adjacency
    is symmetric this covers every edge of the graph. *)
Theorem proper_coloring_mutual `{SetOrder} graph cs :
  NoDup (dict_keys graph) → dsatur graph = Ok cs →
  proper (mutual_edge graph) cs ∧
  (symmetric graph → proper (symmetrized_edge graph) cs).
Proof.
  intros Hnd Hrun.
  destruct (dsatur_result graph Hnd (dsatur_Ok_nonempty _ _ Hrun))
    as (cs' & Hrun' & _ & Hkeys & Hlog).
  assert (cs' = cs) as -> by congruence.
  pose proof (greedy_log_proper graph cs Hlog) as Hproper.
  split; [done|].
  intros Hsym u v cu cv Hedge Hne Hcu Hcv.
  assert (is_Some (dict_get graph u)) as [nu Hnu].
  { apply dict_get_is_Some, Hkeys, dict_get_is_Some. by rewrite Hcu. }
  assert (is_Some (dict_get graph v)) as [nv Hnv].
  { apply dict_get_is_Some, Hkeys, dict_get_is_Some. by rewrite Hcv. }
  apply (Hproper u v cu cv); [|done..].
  destruct Hedge as [(nu' & Hnu' & Hin)|(nv' & Hnv' & Hin)].
  - assert (nu' = nu) as -> by congruence.
    split; [by exists nu|]. exists nv. split; [done|]. by eapply Hsym.
  - assert (nv' = nv) as -> by congruence.
    split; [|by exists nv]. exists nu. split; [done|]. by eapply Hsym.
Qed.

Lemma proper_coloring_mutual_witness :
  NoDup (dict_keys path4) ∧
  dsatur path4 = Ok [(2%Z, 1); (3%Z, 2); (1%Z, 2); (4%Z, 1)] ∧
  proper (mutual_edge path4) [(2%Z, 1); (3%Z, 2); (1%Z, 2); (4%Z, 1)] ∧
  (symmetric path4 →
   proper (symmetrized_edge path4) [(2%Z, 1); (3%Z, 2); (1%Z, 2); (4%Z, 1)]).
Proof.
  assert (NoDup (dict_keys path4)) as Hnd by compute_done.
  assert (dsatur path4 = Ok [(2%Z, 1); (3%Z, 2); (1%Z, 2); (4%Z, 1)]) as Hrun
    by (by vm_compute).
  split; [done|]. split; [done|].
  exact (proper_coloring_mutual path4 _ Hnd Hrun).
Defined.

(** ** C2: the colour given at an assignment step *)

(** C2: every vertex [v] of an accepted graph is coloured by an assignment
    step, taken when [v] is still uncoloured; the colour it gets there, which
    is its colour in the result, is the smallest positive integer that is not
    the colour of an already coloured neighbour, and is at most the degree
    of [v] plus one. *)
Theorem smallest_color_at_assignment `{SetOrder} graph cs v :
  NoDup (dict_keys graph) → dsatur graph = Ok cs → v ∈ dict_keys graph →
  ∃ pre c ns,
    assigned_at graph pre v c ∧ dict_get pre v = None ∧
    dict_get cs v = Some c ∧ dict_get graph v = Some ns ∧
    least_free (colors_among pre ns) c ∧ c ≤ length ns + 1.
Proof.
  intros Hnd Hrun Hv.
  destruct (dsatur_total graph Hnd (dsatur_Ok_nonempty _ _ Hrun))
    as (st & Hrun' & Hreach & Hdone).
  assert (colors st = cs) as Hcs by congruence.
  destruct (reachable_inv graph st Hnd Hreach) as [_ Hkeys _ Hlog].
  apply Hkeys in Hv. rewrite Hdone, app_nil_r in Hv.
  apply dict_get_is_Some in Hv as [c Hc].
  destruct (dict_split _ _ _ Hc) as (pre & post & Hsplit & Hfresh).
  destruct (Hlog pre v c post Hsplit) as (ns & Hns & Hmin).
  exists pre, c, ns. split; [by eapply reachable_history|].
  split; [by apply dict_get_None|]. split; [by rewrite <-Hcs|].
  split; [done|]. rewrite Hmin.
  split; [apply smallest_color_least_free|].
  pose proof (smallest_color_le (colors_among pre ns)).
  pose proof (colors_among_size pre ns). lia.
Qed.

Lemma smallest_color_at_assignment_witness :
  ∃ pre c ns,
    assigned_at path4 pre 3%Z c ∧ dict_get pre 3%Z = None ∧
    dict_get [(2%Z, 1); (3%Z, 2); (1%Z, 2); (4%Z, 1)] 3%Z = Some c ∧
    dict_get path4 3%Z = Some ns ∧
    least_free (colors_among pre ns) c ∧ c ≤ length ns + 1.
Proof.
  apply (smallest_color_at_assignment path4);
    [compute_done|by vm_compute|compute_done].
Defined.

(** ** C9: isolated vertices *)



(** ** C4: rejected inputs *)

(** C4, as stated, fails: the graph [{1: [1, 2]}] has a self-loop and names a
    vertex 2 that does not exist, and [dsatur] returns [{1: 1}] for it. *)
Lemma invalid_adjacency_counterexample :
  invalid_adjacency loop_and_dangling ∧
  dsatur loop_and_dangling = Ok [(1%Z, 1)].
Proof.
  split; [|by vm_compute].
  exists 1%Z, [1; 2]%Z, 1%Z. split; [done|]. split; [by left|by left].
Qed.

(** C4, amended: the only graph [dsatur] fails on is the graph without
    vertices, on which [max] raises [ValueError]; every other graph is
    accepted, whatever its neighbour lists refer to. *)
Theorem dsatur_fails_only_on_empty `{SetOrder} graph :
  NoDup (dict_keys graph) →
  (graph = [] ∧ dsatur graph = Raise ValueError) ∨
  (graph ≠ [] ∧ ∃ cs, dsatur graph = Ok cs).
Proof.
  intros Hnd. destruct (decide (graph = [])) as [->|Hne].
  - left. split; [done|apply dsatur_nil].
  - right. split; [done|].
    destruct (dsatur_result graph Hnd Hne) as (cs & Hrun & _). by exists cs.
Qed.

Lemma dsatur_fails_only_on_empty_witness :
  (loop_and_dangling = [] ∧ dsatur loop_and_dangling = Raise ValueError) ∨
  (loop_and_dangling ≠ [] ∧ ∃ cs, dsatur loop_and_dangling = Ok cs).
Proof. apply (dsatur_fails_only_on_empty loop_and_dangling). compute_done. Defined.

(** ** C5: termination and coverage *)

Lemma loop_fuel_mono graph fuel fuel' st cs :
  fuel ≤ fuel' → loop fuel graph st = Ok cs → loop fuel' graph st = Ok cs.
Proof.
  revert fuel' st. induction fuel as [|fuel IH]; intros fuel' st Hle Hloop.
  - simpl in Hloop. destruct (uncolored st) eqn:Hunc; [|done].
    destruct fuel'; simpl; by rewrite Hunc.
  - destruct fuel' as [|fuel']; [lia|]. simpl in *.
    destruct (uncolored st); [done|].
    destruct (step graph st) as [st1|]; [|done].
    rewrite bind_Ok_l in *. apply IH; [lia|done].
Qed.

(** C5: on every non-empty graph [dsatur] returns; the main loop makes
    exactly [|V| - 1] iterations after the assignment of the prologue (one
    unit of fuel short and it is cut off); every entry of the result records
    one assignment step, no vertex has two entries, and the keys of the
    result are the vertices of the graph, so its size is [|V|]. *)
Theorem dsatur_terminates_covering `{SetOrder} graph :
  NoDup (dict_keys graph) → graph ≠ [] →
  ∃ cs, dsatur graph = Ok cs ∧
    (∀ fuel, dsatur_fuel fuel graph =
       if decide (length graph ≤ S fuel) then Ok cs else Raise OutOfFuel) ∧
    (∀ pre v c post, cs = pre ++ (v, c) :: post → assigned_at graph pre v c) ∧
    NoDup (dict_keys cs) ∧
    dict_keys cs ≡ₚ dict_keys graph ∧
    length cs = length graph.
Proof.
  intros Hnd Hne.
  destruct (dsatur_total graph Hnd Hne) as (st & Hrun & Hreach & Hdone).
  destruct (reachable_inv graph st Hnd Hreach) as [Hnodup Hkeys _ _].
  rewrite Hdone, app_nil_r in Hnodup.
  assert (dict_keys (colors st) ≡ₚ dict_keys graph) as Hperm.
  { apply NoDup_Permutation; [done..|].
    intros v. rewrite <-Hkeys, Hdone, app_nil_r. done. }
  exists (colors st). split; [done|]. split; [|split; [|split; [done|split] ] ].
  - intros fuel. unfold dsatur, dsatur_fuel in *.
    destruct (init_spec graph Hnd Hne) as (st0 & _ & _ & Hinit & _).
    rewrite Hinit, bind_Ok_l in *.
    pose proof (init_length graph st0 Hnd Hinit) as Hlen.
    case_decide as Hfuel.
    + destruct (loop_total graph fuel st0 Hnd (reach_init _ _ Hinit))
        as (st1 & Hloop & _); [lia|].
      rewrite Hloop. f_equal.
      destruct (decide (fuel ≤ length graph)).
      * apply (loop_fuel_mono _ _ (length graph)) in Hloop; [|done].
        congruence.
      * apply (loop_fuel_mono _ _ fuel) in Hrun; [|lia]. congruence.
    + apply loop_out_of_fuel; [done|by apply reach_init|lia].
  - intros pre v c post Hsplit. by eapply reachable_history.
  - done.
  - rewrite <-(length_fmap fst (colors st)), <-(length_fmap fst graph).
    by apply Permutation_length.
Qed.

Lemma dsatur_terminates_covering_witness :
  ∃ cs, dsatur path4 = Ok cs ∧
    (∀ fuel, dsatur_fuel fuel path4 =
       if decide (length path4 ≤ S fuel) then Ok cs else Raise OutOfFuel) ∧
    (∀ pre v c post, cs = pre ++ (v, c) :: post → assigned_at path4 pre v c) ∧
    NoDup (dict_keys cs) ∧
    dict_keys cs ≡ₚ dict_keys path4 ∧
    length cs = length path4.
Proof. apply (dsatur_terminates_covering path4); [compute_done|done]. Defined.

(** ** C7: the stored saturation degrees *)

(** C7, as stated, fails: on [{1: [2, 3], 2: [1], 3: [1], 4: [1, 2]}] vertex
    1 is coloured first and does not list vertex 4, so the entry of vertex 4
    is not recomputed: at the head of the first iteration it is still the
    degree 2, while vertex 4 has one coloured neighbour. *)
Lemma stored_dsat_counterexample :
  ∃ st, reachable stale4 st ∧ ¬ dsat_exact stale4 st.
Proof.
  destruct (init stale4) as [st|e] eqn:Hinit; [|by vm_compute in Hinit].
  exists st. split; [by apply reach_init|].
  intros Hexact. vm_compute in Hinit. injection Hinit as <-.
  assert (4%Z ∈ [2; 3; 4]%Z) as Hin by compute_done.
  apply Hexact in Hin. by vm_compute in Hin.
Qed.

(** C7, amended: when the adjacency is symmetric, at the head of every
    iteration of the main loop the stored saturation degree of every
    uncoloured vertex is the number of distinct colours among its coloured
    neighbours, or its degree when none of its neighbours is coloured. *)
Theorem stored_dsat_symmetric `{SetOrder} graph st :
  symmetric graph → NoDup (dict_keys graph) → reachable graph st →
  dsat_exact graph st.
Proof. intros Hsym Hnd Hreach v Hv. by apply reachable_dsat. Qed.

Lemma path4_symmetric : symmetric path4.
Proof.
  intros u v nu nv Hu Hv Hin. unfold path4 in *. simpl in Hu, Hv.
  repeat case_decide; simplify_eq;
    repeat (apply elem_of_cons in Hin as [Hin|Hin]; simplify_eq);
    try (by apply elem_of_nil in Hin); compute_done.
Qed.

Lemma stored_dsat_symmetric_witness :
  ∃ st, init path4 = Ok st ∧ dsat_exact path4 st.
Proof.
  destruct (init path4) as [st|e] eqn:Hinit; [|by vm_compute in Hinit].
  exists st. split; [done|].
  apply (stored_dsat_symmetric path4 st);
    [exact path4_symmetric|compute_done|by apply reach_init].
Defined.

(** ** C3: the vertex coloured next *)

(** The key [max] compares for an uncoloured vertex is the pair of its entry
    in [dsat] and of the length of its neighbour list. *)
Lemma priority_components graph st w :
  NoDup (dict_keys graph) → inv graph st → w ∈ uncolored st →
  ∃ s nw, dsat st !! w = Some s ∧ dict_get graph w = Some nw ∧
          priority (degree_of graph) (dsat st) w = Ok (s, length nw).
Proof.
  intros Hnd [_ Hkeys Hdsat _] Hw.
  assert (w ∈ dict_keys graph) as Hkey by (apply Hkeys, elem_of_app; by right).
  destruct (Hdsat w Hkey) as [s Hs].
  apply dict_get_is_Some in Hkey as [nw Hnw].
  exists s, nw. split; [done|]. split; [done|]. unfold priority.
  rewrite (proj2 (map_getitem_Ok _ _ _) Hs), bind_Ok_l.
  unfold map_getitem. by rewrite degree_of_lookup, Hnw.
Qed.

(** C3, as stated, fails: on [{3: [9, 16], 9: [3], 16: [3]}] vertex 3 is
    coloured first; vertices 9 and 16 then both have the saturation degree 1
    and the degree 1, the set [{9, 16}] is iterated as 16, 9, and [max]
    keeps the first of the two: vertex 16 is coloured next, not vertex 9. *)
Lemma lowest_id_tie_break_counterexample :
  ∃ st, reachable star_16_9 st ∧
        next_vertex star_16_9 st = Ok 16%Z ∧
        uncolored st = [16; 9]%Z ∧
        dsat st !! 9%Z = Some 1 ∧ dsat st !! 16%Z = Some 1 ∧
        dict_get star_16_9 9%Z = Some [3%Z] ∧
        dict_get star_16_9 16%Z = Some [3%Z] ∧
        (9 < 16)%Z.
Proof.
  destruct (init star_16_9) as [st|e] eqn:Hinit; [|by vm_compute in Hinit].
  exists st. split; [by apply reach_init|].
  vm_compute in Hinit. injection Hinit as <-.
  split; [by vm_compute|]. split; [done|].
  split; [by vm_compute|]. split; [by vm_compute|done].
Qed.

(** C3, amended: at every iteration of the main loop the vertex [v] coloured
    next is an uncoloured vertex that maximizes the pair (DSAT, degree), its
    entry in [dsat] and the length of its neighbour list, compared
    lexicographically with DSAT first: every uncoloured vertex has a smaller
    DSAT, or the same DSAT and a degree that is not larger.  Among the
    vertices that tie with [v] on both, [v] is the one the iteration over
    the set of uncoloured vertices meets first: the vertices met before [v]
    have a smaller DSAT, or the same DSAT and a strictly smaller degree. *)
Theorem next_vertex_first_max `{SetOrder} graph st :
  NoDup (dict_keys graph) → reachable graph st → uncolored st ≠ [] →
  ∃ v c st' l1 l2 sv nv,
    next_vertex graph st = Ok v ∧
    step graph st = Ok st' ∧ colors st' = colors st ++ [(v, c)] ∧
    uncolored st = l1 ++ v :: l2 ∧
    dsat st !! v = Some sv ∧ dict_get graph v = Some nv ∧
    (∀ w, w ∈ l1 → ∃ sw nw,
       dsat st !! w = Some sw ∧ dict_get graph w = Some nw ∧
       (sw < sv ∨ (sw = sv ∧ length nw < length nv))) ∧
    (∀ w, w ∈ l2 → ∃ sw nw,
       dsat st !! w = Some sw ∧ dict_get graph w = Some nw ∧
       (sw < sv ∨ (sw = sv ∧ length nw ≤ length nv))).
Proof.
  intros Hnd Hreach Hne.
  pose proof (reachable_inv graph st Hnd Hreach) as Hinv.
  destruct (step_spec graph st Hnd Hinv Hne)
    as (st' & v & ns & Hstep & Hnext & Hmax & _ & Hcs & _).
  pose proof (first_max_elem _ _ _ _ Hmax) as Hv.
  destruct Hmax as (l1 & l2 & kv & Hsplit & Hkv & Hbefore & Hafter).
  destruct (priority_components graph st v Hnd Hinv Hv)
    as (sv & nv & Hsv & Hnv & Hpv).
  assert (kv = (sv, length nv)) as -> by congruence.
  exists v, (smallest_color (colors_among (colors st) ns)), st', l1, l2, sv, nv.
  repeat (split; [done|]). split.
  - intros w Hw.
    destruct (priority_components graph st w Hnd Hinv)
      as (sw & nw & Hsw & Hnw & Hpw).
    { rewrite Hsplit, elem_of_app. by left. }
    exists sw, nw. split; [done|]. split; [done|].
    by apply (pair_lt_spec (sw, length nw) (sv, length nv)), (Hbefore w).
  - intros w Hw.
    destruct (priority_components graph st w Hnd Hinv)
      as (sw & nw & Hsw & Hnw & Hpw).
    { rewrite Hsplit, elem_of_app. right. by right. }
    exists sw, nw. split; [done|]. split; [done|].
    pose proof (Hafter w _ Hw Hpw) as Hle.
    apply (pair_lt_false (sv, length nv) (sw, length nw)) in Hle.
    simpl in Hle. lia.
Qed.

Lemma next_vertex_first_max_witness :
  ∃ st, init star_16_9 = Ok st ∧ uncolored st = [16; 9]%Z ∧
  ∃ v c st' l1 l2 sv nv,
    next_vertex star_16_9 st = Ok v ∧
    step star_16_9 st = Ok st' ∧ colors st' = colors st ++ [(v, c)] ∧
    uncolored st = l1 ++ v :: l2 ∧
    dsat st !! v = Some sv ∧ dict_get star_16_9 v = Some nv ∧
    (∀ w, w ∈ l1 → ∃ sw nw,
       dsat st !! w = Some sw ∧ dict_get star_16_9 w = Some nw ∧
       (sw < sv ∨ (sw = sv ∧ length nw < length nv))) ∧
    (∀ w, w ∈ l2 → ∃ sw nw,
       dsat st !! w = Some sw ∧ dict_get star_16_9 w = Some nw ∧
       (sw < sv ∨ (sw = sv ∧ length nw ≤ length nv))).
Proof.
  destruct (init star_16_9) as [st|e] eqn:Hinit; [|by vm_compute in Hinit].
  exists st. split; [done|].
  assert (uncolored st = [16; 9]%Z) as Hunc.
  { vm_compute in Hinit. by injection Hinit as <-. }
  split; [done|].
  apply (next_vertex_first_max star_16_9 st);
    [compute_done|by apply reach_init|by rewrite Hunc].
Defined.

(** ** C10: self-loops *)

Lemma length_filter_self (l : list Z) v :
  length l =
  length (filter (λ n, n ≠ v) l) + length (filter (λ n, n = v) l).
Proof.
  induction l as [|x l IH]; [done|].
  destruct (decide (x = v)) as [Heq|Hne].
  - rewrite (filter_cons_False (λ n, n ≠ v)) by (intros ?; done).
    rewrite (filter_cons_True (λ n, n = v)) by done. simpl. lia.
  - rewrite (filter_cons_True (λ n, n ≠ v)) by done.
    rewrite (filter_cons_False (λ n, n = v)) by done. simpl. lia.
Qed.

Lemma colors_among_filter_self pre v ns :
  dict_get pre v = None →
  colors_among pre ns = colors_among pre (filter (λ n, n ≠ v) ns).
Proof.
  intros Hv. apply set_eq. intros c. rewrite !elem_of_colors_among.
  split; intros (n & Hn & Hget); exists n; (split; [|done]).
  - apply list_elem_of_filter. split; [|done]. intros ->. congruence.
  - by apply list_elem_of_filter in Hn as [_ ?].
Qed.

(** C10: a graph in which a vertex [v] lists itself is accepted, and the
    result has a colour for every vertex.  At the step that colours [v], [v]
    is not yet coloured, so the colours of its neighbours are those of its
    other neighbours and the colour it gets is the smallest one free among
    them.  The degree of [v] counts the occurrences of [v] in its own list,
    and it is this degree that stands, next to the entry of [v] in [dsat], in
    the key [v] is compared by in the main loop. *)
Theorem self_loop_accepted `{SetOrder} graph v ns :
  NoDup (dict_keys graph) → dict_get graph v = Some ns → v ∈ ns →
  ∃ cs pre c,
    dsatur graph = Ok cs ∧
    (∀ u, u ∈ dict_keys graph → is_Some (dict_get cs u)) ∧
    assigned_at graph pre v c ∧ dict_get cs v = Some c ∧
    dict_get pre v = None ∧
    colors_among pre ns = colors_among pre (filter (λ n, n ≠ v) ns) ∧
    least_free (colors_among pre (filter (λ n, n ≠ v) ns)) c ∧
    0 < length (filter (λ n, n = v) ns) ∧
    degree_of graph !! v =
      Some (length (filter (λ n, n ≠ v) ns) +
            length (filter (λ n, n = v) ns)) ∧
    (∀ st, reachable graph st → v ∈ uncolored st →
       ∃ s, dsat st !! v = Some s ∧
            priority (degree_of graph) (dsat st) v =
            Ok (s, length (filter (λ n, n ≠ v) ns) +
                   length (filter (λ n, n = v) ns))).
Proof.
  intros Hnd Hns Hself.
  assert (graph ≠ []) as Hne by (by intros ->).
  destruct (dsatur_total graph Hnd Hne) as (st & Hrun & Hreach & Hdone).
  destruct (reachable_inv graph st Hnd Hreach) as [_ Hkeys _ Hlog].
  assert (∀ u, u ∈ dict_keys graph → is_Some (dict_get (colors st) u)) as Hall.
  { intros u Hu. apply dict_get_is_Some. apply Hkeys in Hu.
    by rewrite Hdone, app_nil_r in Hu. }
  destruct (Hall v) as [c Hc]; [apply dict_get_is_Some; by rewrite Hns|].
  destruct (dict_split _ _ _ Hc) as (pre & post & Hsplit & Hfresh).
  destruct (Hlog pre v c post Hsplit) as (ns' & Hns' & Hmin).
  assert (ns' = ns) as -> by congruence.
  apply dict_get_None in Hfresh.
  exists (colors st), pre, c. split; [done|]. split; [done|].
  split; [by eapply reachable_history|]. split; [done|]. split; [done|].
  split; [by apply colors_among_filter_self|].
  split.
  { rewrite <-(colors_among_filter_self pre v ns Hfresh), Hmin.
    apply smallest_color_least_free. }
  split.
  { assert (v ∈ filter (λ n, n = v) ns) as Hin
      by (by apply list_elem_of_filter).
    destruct (filter (λ n, n = v) ns); [by apply elem_of_nil in Hin|].
    simpl. lia. }
  split.
  { by rewrite degree_of_lookup, Hns, <-length_filter_self. }
  intros st1 Hreach1 Hv1. rewrite <-length_filter_self.
  destruct (priority_components graph st1 v Hnd
              (reachable_inv graph st1 Hnd Hreach1) Hv1)
    as (s & nv & Hs & Hnv & Hprio).
  assert (nv = ns) as -> by congruence. by exists s.
Qed.

(** The theorem at the graph [{1: [2, 3], 2: [1, 2], 3: [1]}] and its vertex
    2, which lists itself and is coloured by the first iteration of the main
    loop, after vertex 1: at the head of that iteration vertex 2 is
    uncoloured, and the run returns [{1: 1, 2: 2, 3: 2}].  Every entry of
    every neighbour list is a vertex of the graph. *)
Lemma self_loop_accepted_witness :
  (∃ st, reachable self_loop3 st ∧ 2%Z ∈ uncolored st ∧
         colors st = [(1%Z, 1)]) ∧
  dsatur self_loop3 = Ok [(1%Z, 1); (2%Z, 2); (3%Z, 2)] ∧
  (∀ u ns w, dict_get self_loop3 u = Some ns → w ∈ ns →
             w ∈ dict_keys self_loop3) ∧
  ∃ cs pre c,
    dsatur self_loop3 = Ok cs ∧
    (∀ u, u ∈ dict_keys self_loop3 → is_Some (dict_get cs u)) ∧
    assigned_at self_loop3 pre 2%Z c ∧ dict_get cs 2%Z = Some c ∧
    dict_get pre 2%Z = None ∧
    colors_among pre [1; 2]%Z =
      colors_among pre (filter (λ n, n ≠ 2%Z) [1; 2]%Z) ∧
    least_free (colors_among pre (filter (λ n, n ≠ 2%Z) [1; 2]%Z)) c ∧
    0 < length (filter (λ n, n = 2%Z) [1; 2]%Z) ∧
    degree_of self_loop3 !! 2%Z =
      Some (length (filter (λ n, n ≠ 2%Z) [1; 2]%Z) +
            length (filter (λ n, n = 2%Z) [1; 2]%Z)) ∧
    (∀ st, reachable self_loop3 st → 2%Z ∈ uncolored st →
       ∃ s, dsat st !! 2%Z = Some s ∧
            priority (degree_of self_loop3) (dsat st) 2%Z =
            Ok (s, length (filter (λ n, n ≠ 2%Z) [1; 2]%Z) +
                   length (filter (λ n, n = 2%Z) [1; 2]%Z))).
Proof.
  split.
  { destruct (init self_loop3) as [st|e] eqn:Hinit; [|by vm_compute in Hinit].
    exists st. split; [by apply reach_init|].
    vm_compute in Hinit. injection Hinit as <-. split; [compute_done|done]. }
  split; [by vm_compute|].
  split.
  { intros u ns w Hu Hw. unfold self_loop3 in Hu. simpl in Hu.
    repeat case_decide; simplify_eq;
      repeat (apply elem_of_cons in Hw as [->|Hw]);
      try (by apply elem_of_nil in Hw); compute_done. }
  apply (self_loop_accepted self_loop3 2%Z [1; 2]%Z);
    [compute_done|done|compute_done].
Defined.

(** ** C6: the worked scenario *)

(** C6: on the path 1 - 2 - 3 - 4, whatever the order in which the set of
    uncoloured vertices is iterated, [dsatur] returns an assignment that maps
    1 to 2, 2 to 1, 3 to 2 and 4 to 1; when the set is iterated in increasing
    order the vertices are coloured in the order 2, 3, 1, 4. *)
Theorem path4_coloring `{SetOrder} :
  ∃ cs, dsatur path4 = Ok cs ∧
    (∀ v, dict_get cs v =
          dict_get [(1%Z, 2); (2%Z, 1); (3%Z, 2); (4%Z, 1)] v) ∧
    (set_iter [1; 2; 3; 4]%Z = [1; 2; 3; 4]%Z →
     cs = [(2%Z, 1); (3%Z, 2); (1%Z, 2); (4%Z, 1)]).
Proof.
  unfold dsatur, dsatur_fuel, init.
  change (dict_keys path4) with [1; 2; 3; 4]%Z.
  pose proof (set_iter_NoDup [1; 2; 3; 4]%Z) as Hnd.
  pose proof (set_iter_elem [1; 2; 3; 4]%Z) as Hel.
  assert (length (set_iter [1; 2; 3; 4]%Z) = 4) as Hlen.
  { change 4 with (length [1; 2; 3; 4]%Z).
    apply Permutation_length, NoDup_Permutation; [done|compute_done|done]. }
  destruct (set_iter [1; 2; 3; 4]%Z) as [|a [|b [|c [|d [|e l] ] ] ] ];
    try done.
  assert (a ∈ [1; 2; 3; 4]%Z) as Ha by (apply Hel; left).
  assert (b ∈ [1; 2; 3; 4]%Z) as Hb by (apply Hel; right; left).
  assert (c ∈ [1; 2; 3; 4]%Z) as Hc by (apply Hel; right; right; left).
  assert (d ∈ [1; 2; 3; 4]%Z) as Hd by (apply Hel; right; right; right; left).
  clear Hel Hlen.
  repeat match goal with
         | Hin : _ ∈ _ :: _ |- _ => apply elem_of_cons in Hin as [->|Hin]
         | Hin : _ ∈ [] |- _ => by apply elem_of_nil in Hin
         end;
    first
      [ by (exfalso; revert Hnd; compute_done)
      | eexists; split; [vm_compute; reflexivity|];
        split;
        [ intros v; simpl; repeat case_decide; simplify_eq; done
        | intros [=]; done ] ].
Qed.

Lemma path4_coloring_witness :
  dsatur path4 = Ok [(2%Z, 1); (3%Z, 2); (1%Z, 2); (4%Z, 1)].
Proof.
  destruct (path4_coloring (H := slot_set_order)) as (cs & Hrun & _ & Horder).
  rewrite Hrun. f_equal. apply Horder. by vm_compute.
Defined.

(** * Further properties of [dsatur] *)

(** ** The assignment only grows *)

Lemma dict_get_prefix {A} (d1 d2 : dict A) k a :
  d1 `prefix_of` d2 → dict_get d1 k = Some a → dict_get d2 k = Some a.
Proof. intros [d ->] Hget. by rewrite dict_get_app, Hget. Qed.

Lemma loop_prefix graph fuel st cs :
  NoDup (dict_keys graph) → inv graph st →
  loop fuel graph st = Ok cs → colors st `prefix_of` cs.
Proof.
  intros Hnd. revert st. induction fuel as [|fuel IH]; intros st Hinv Hloop.
  - simpl in Hloop. destruct (uncolored st); by simplify_eq.
  - simpl in Hloop. destruct (uncolored st) as [|x unc] eqn:Hunc;
      [by simplify_eq|].
    assert (uncolored st ≠ []) as Hne by (by rewrite Hunc).
    destruct (step_spec graph st Hnd Hinv Hne)
      as (st' & v & ns & Hstep & _ & _ & _ & Hcs & _).
    rewrite Hstep, bind_Ok_l in Hloop.
    etrans; [|apply (IH st'); [by eapply step_inv|done] ].
    rewrite Hcs. by apply prefix_app_r.
Qed.

Lemma reachable_loop `{SetOrder} graph st cs :
  reachable graph st → dsatur graph = Ok cs →
  ∃ fuel, loop fuel graph st = Ok cs.
Proof.
  intros Hreach Hrun.
  induction Hreach as [st Hinit|st st' Hreach [fuel IH] Hne Hstep].
  - exists (length graph). unfold dsatur, dsatur_fuel in Hrun.
    by rewrite Hinit, bind_Ok_l in Hrun.
  - destruct fuel as [|fuel]; simpl in IH;
      (destruct (uncolored st); [done|]); [done|].
    rewrite Hstep, bind_Ok_l in IH. by exists fuel.
Qed.

Lemma reachable_prefix `{SetOrder} graph st cs :
  NoDup (dict_keys graph) → reachable graph st → dsatur graph = Ok cs →
  colors st `prefix_of` cs.
Proof.
  intros Hnd Hreach Hrun.
  destruct (reachable_loop graph st cs Hreach Hrun) as [fuel Hloop].
  eapply loop_prefix; [done|by apply reachable_inv|done].
Qed.

(** X1: at the head of every iteration of the main loop the assignment built so
    far is an initial segment of the assignment that is returned: a vertex,
    once coloured, keeps its colour. *)
Theorem colors_append_only `{SetOrder} graph st cs :
  NoDup (dict_keys graph) → reachable graph st → dsatur graph = Ok cs →
  colors st `prefix_of` cs ∧
  ∀ v c, dict_get (colors st) v = Some c → dict_get cs v = Some c.
Proof.
  intros Hnd Hreach Hrun.
  pose proof (reachable_prefix graph st cs Hnd Hreach Hrun) as Hpre.
  split; [done|]. intros v c. by apply dict_get_prefix.
Qed.

Lemma colors_append_only_witness :
  ∃ st, init path4 = Ok st ∧
    colors st `prefix_of` [(2%Z, 1); (3%Z, 2); (1%Z, 2); (4%Z, 1)] ∧
    ∀ v c, dict_get (colors st) v = Some c →
           dict_get [(2%Z, 1); (3%Z, 2); (1%Z, 2); (4%Z, 1)] v = Some c.
Proof.
  destruct (init path4) as [st|e] eqn:Hinit; [|by vm_compute in Hinit].
  exists st. split; [done|].
  apply (colors_append_only path4 st);
    [compute_done|by apply reach_init|by vm_compute].
Defined.

(** ** The first vertex *)

(** X2: the vertex coloured first, with colour 1, is the first key of the graph,
    in the order of the dictionary, whose neighbour list is longest. *)
Theorem first_vertex_max_degree `{SetOrder} graph :
  NoDup (dict_keys graph) → graph ≠ [] →
  ∃ v nv l1 l2 rest,
    dsatur graph = Ok ((v, 1) :: rest) ∧
    dict_keys graph = l1 ++ v :: l2 ∧ dict_get graph v = Some nv ∧
    (∀ w nw, w ∈ l1 → dict_get graph w = Some nw → length nw < length nv) ∧
    (∀ w nw, w ∈ l2 → dict_get graph w = Some nw → length nw ≤ length nv).
Proof.
  intros Hnd Hne.
  destruct (init_spec graph Hnd Hne)
    as (st0 & v & nv & Hinit & Hmax & Hnv & Hcs0 & _).
  destruct (dsatur_total graph Hnd Hne) as (st & Hrun & _ & _).
  destruct (reachable_prefix graph st0 (colors st) Hnd
              (reach_init _ _ Hinit) Hrun) as [rest Hrest].
  rewrite Hcs0 in Hrest. simpl in Hrest.
  destruct Hmax as (l1 & l2 & kv & Hsplit & Hkv & Hbefore & Hafter).
  assert (∀ w nw, dict_get graph w = Some nw →
            map_getitem (degree_of graph) w = Ok (length nw)) as Hdeg.
  { intros w nw Hw. apply map_getitem_Ok. by rewrite degree_of_lookup, Hw. }
  assert (kv = length nv) as ->.
  { specialize (Hdeg v nv Hnv). congruence. }
  exists v, nv, l1, l2, rest. split; [by rewrite Hrun, Hrest|].
  split; [done|]. split; [done|]. split.
  - intros w nw Hw Hnw. apply Nat.ltb_lt. eapply Hbefore; [done|by apply Hdeg].
  - intros w nw Hw Hnw. apply Nat.ltb_ge. eapply Hafter; [done|by apply Hdeg].
Qed.

Lemma first_vertex_max_degree_witness :
  ∃ v nv l1 l2 rest,
    dsatur path4 = Ok ((v, 1) :: rest) ∧
    dict_keys path4 = l1 ++ v :: l2 ∧ dict_get path4 v = Some nv ∧
    (∀ w nw, w ∈ l1 → dict_get path4 w = Some nw → length nw < length nv) ∧
    (∀ w nw, w ∈ l2 → dict_get path4 w = Some nw → length nw ≤ length nv).
Proof. apply (first_vertex_max_degree path4); [compute_done|done]. Defined.

(** ** The colours used *)

Lemma greedy_log_below graph cs v c c' :
  greedy_log graph cs → dict_get cs v = Some c → 1 ≤ c' → c' ≤ c →
  ∃ u, dict_get cs u = Some c'.
Proof.
  intros Hlog Hc Hpos Hle.
  destruct (decide (c' = c)) as [->|Hne]; [by exists v|].
  destruct (dict_split cs v c Hc) as (pre & post & -> & _).
  destruct (Hlog pre v c post eq_refl) as (ns & _ & Hmin).
  assert (c' ∈ colors_among pre ns) as Hin.
  { apply smallest_color_least; [done|]. rewrite <-Hmin. lia. }
  apply elem_of_colors_among in Hin as (u & _ & Hu).
  exists u. eapply dict_get_prefix; [|done]. by apply prefix_app_r.
Qed.

(** X3: the colours of the returned assignment are exactly 1, ..., k for some
    k ≥ 1 (no colour is skipped), and k is at most one more than the length
    of the longest neighbour list. *)
Theorem colors_contiguous `{SetOrder} graph cs bound :
  NoDup (dict_keys graph) → dsatur graph = Ok cs →
  (∀ v ns, dict_get graph v = Some ns → length ns ≤ bound) →
  ∃ k, 1 ≤ k ∧ k ≤ bound + 1 ∧
       ∀ c, (∃ v, dict_get cs v = Some c) ↔ 1 ≤ c ∧ c ≤ k.
Proof.
  intros Hnd Hrun Hbound.
  pose proof (dsatur_Ok_nonempty _ _ Hrun) as Hne.
  destruct (dsatur_result graph Hnd Hne) as (cs' & Hrun' & Hnodup & Hkeys & Hlog).
  assert (cs' = cs) as -> by congruence.
  assert (∀ v c, dict_get cs v = Some c → 1 ≤ c ∧ c ≤ bound + 1) as Hrange.
  { intros v c Hc.
    destruct (dict_split cs v c Hc) as (pre & post & Hsplit & _).
    destruct (Hlog pre v c post Hsplit) as (ns & Hns & ->).
    pose proof (smallest_color_pos (colors_among pre ns)).
    pose proof (smallest_color_le (colors_among pre ns)).
    pose proof (colors_among_size pre ns).
    pose proof (Hbound v ns Hns). lia. }
  assert (cs.*2 ≠ []) as Hvals.
  { destruct cs as [|p cs]; [|done].
    destruct graph as [|[w nw] graph]; [done|].
    assert (w ∈ dict_keys ([] : Colors)) as Hw by (apply Hkeys; left).
    by apply elem_of_nil in Hw. }
  assert (∀ c, c ∈ cs.*2 ↔ ∃ v, dict_get cs v = Some c) as Hvalues.
  { intros c. rewrite list_elem_of_fmap. split.
    - intros ([v c'] & -> & Hin).
      apply list_elem_of_split in Hin as (pre & post & ->).
      rewrite dict_keys_app in Hnodup.
      apply NoDup_app in Hnodup as (_ & Hdisj & _).
      exists v. apply dict_get_middle. intros Hv.
      eapply Hdisj; [exact Hv|left].
    - intros (v & Hv). exists (v, c). split; [done|].
      by apply dict_get_Some_elem. }
  exists (max_list (cs.*2)).
  pose proof (max_list_elem_of _ Hvals) as Hmax.
  apply Hvalues in Hmax as (vmax & Hvmax).
  destruct (Hrange _ _ Hvmax) as [Hlo Hhi].
  split; [done|]. split; [done|]. intros c. split.
  - intros (v & Hv). split; [by apply (Hrange v)|].
    apply max_list_elem_of_le, Hvalues. by exists v.
  - intros [Hpos Hle]. by eapply greedy_log_below.
Qed.

Lemma colors_contiguous_witness :
  ∃ k, 1 ≤ k ∧ k ≤ 2 + 1 ∧
       ∀ c, (∃ v, dict_get [(2%Z, 1); (3%Z, 2); (1%Z, 2); (4%Z, 1)] v = Some c)
            ↔ 1 ≤ c ∧ c ≤ k.
Proof.
  apply (colors_contiguous path4); [compute_done|by vm_compute|].
  intros v ns Hv. unfold path4 in Hv. simpl in Hv.
  repeat case_decide; simplify_eq; simpl; lia.
Defined.

(** ** The state at the head of the main loop *)

(** X4: at the head of every iteration of the main loop, the coloured vertices
    and the uncoloured ones are two duplicate-free collections that share no
    vertex and together hold exactly the vertices of the graph. *)
Theorem colored_uncolored_partition `{SetOrder} graph st :
  NoDup (dict_keys graph) → reachable graph st →
  NoDup (dict_keys (colors st)) ∧ NoDup (uncolored st) ∧
  (∀ v, v ∈ dict_keys (colors st) → v ∉ uncolored st) ∧
  (∀ v, v ∈ dict_keys graph ↔
        v ∈ dict_keys (colors st) ∨ v ∈ uncolored st).
Proof.
  intros Hnd Hreach.
  destruct (reachable_inv graph st Hnd Hreach) as [Hnodup Hkeys _ _].
  apply NoDup_app in Hnodup as (Hcol & Hdisj & Hunc).
  repeat split; try done.
  - intros Hv. by apply elem_of_app, Hkeys.
  - intros Hv. by apply Hkeys, elem_of_app.
Qed.

Lemma colored_uncolored_partition_witness :
  ∃ st, init path4 = Ok st ∧
  NoDup (dict_keys (colors st)) ∧ NoDup (uncolored st) ∧
  (∀ v, v ∈ dict_keys (colors st) → v ∉ uncolored st) ∧
  (∀ v, v ∈ dict_keys path4 ↔
        v ∈ dict_keys (colors st) ∨ v ∈ uncolored st).
Proof.
  destruct (init path4) as [st|e] eqn:Hinit; [|by vm_compute in Hinit].
  exists st. split; [done|].
  apply (colored_uncolored_partition path4 st);
    [compute_done|by apply reach_init].
Defined.

Lemma dsat_value_le graph cs v ns :
  dict_get graph v = Some ns → dsat_value graph cs v ≤ length ns.
Proof.
  intros Hns. unfold dsat_value. rewrite Hns.
  case_decide; [done|apply colors_among_size].
Qed.

(** X5: at the head of every iteration of the main loop, [dsat] has an entry for
    exactly the vertices of the graph (never for a neighbour that is not a
    vertex), and no entry exceeds the length of the neighbour list of its
    vertex. *)
Theorem stored_dsat_bounded `{SetOrder} graph st :
  NoDup (dict_keys graph) → reachable graph st →
  (∀ v, is_Some (dsat st !! v) ↔ v ∈ dict_keys graph) ∧
  (∀ v s ns, dsat st !! v = Some s → dict_get graph v = Some ns →
             s ≤ length ns).
Proof.
  intros Hnd Hreach.
  assert (∀ v s, dsat st !! v = Some s →
            ∃ ns, dict_get graph v = Some ns ∧ s ≤ length ns) as Hall.
  { induction Hreach as [st Hinit|st st' Hreach IH Hne Hstep]; intros v s Hs.
    - destruct (decide (graph = [])) as [->|Hg];
        [by rewrite init_nil in Hinit|].
      destruct (init_spec graph Hnd Hg)
        as (st0 & f & nf & Hst0 & _ & _ & _ & Hunc & Hdsat).
      assert (st0 = st) as -> by congruence.
      rewrite Hdsat in Hs. case_decide as Hcase.
      + destruct Hcase as [_ Hv]. rewrite Hunc in Hv.
        apply list_elem_of_filter in Hv as [_ Hv].
        apply (set_iter_elem (dict_keys graph) v) in Hv.
        apply dict_get_is_Some in Hv as [ns Hns].
        exists ns. split; [done|]. rewrite Hns in Hs. simpl in Hs.
        injection Hs as <-. apply colors_among_size.
      + rewrite degree_of_lookup in Hs by done.
        destruct (dict_get graph v) as [ns|]; [|done].
        exists ns. split; [done|]. simpl in Hs. by injection Hs as <-.
    - pose proof (reachable_inv graph st Hnd Hreach) as Hinv.
      destruct (step_spec graph st Hnd Hinv Hne)
        as (st0 & x & nx & Hst0 & _ & _ & _ & _ & Hunc & Hdsat).
      assert (st0 = st') as -> by congruence.
      rewrite Hdsat in Hs. case_decide as Hcase; [|by apply IH].
      destruct Hcase as [_ Hv]. rewrite Hunc in Hv.
      apply list_elem_of_filter in Hv as [_ Hv].
      assert (v ∈ dict_keys graph) as [ns Hns]%dict_get_is_Some.
      { destruct Hinv as [_ Hkeys _ _]. apply Hkeys, elem_of_app. by right. }
      exists ns. split; [done|]. injection Hs as <-.
      by apply dsat_value_le. }
  split.
  - intros v. split.
    + intros [s Hs]. destruct (Hall v s Hs) as (ns & Hns & _).
      apply dict_get_is_Some. by rewrite Hns.
    + destruct (reachable_inv graph st Hnd Hreach) as [_ _ Hdom _].
      apply Hdom.
  - intros v s ns Hs Hns. destruct (Hall v s Hs) as (ns' & Hns' & Hle).
    by assert (ns' = ns) as -> by congruence.
Qed.

Lemma stored_dsat_bounded_witness :
  ∃ st, init loop_and_dangling = Ok st ∧
  (∀ v, is_Some (dsat st !! v) ↔ v ∈ dict_keys loop_and_dangling) ∧
  (∀ v s ns, dsat st !! v = Some s →
             dict_get loop_and_dangling v = Some ns → s ≤ length ns).
Proof.
  destruct (init loop_and_dangling) as [st|e] eqn:Hinit;
    [|by vm_compute in Hinit].
  exists st. split; [done|].
  apply (stored_dsat_bounded loop_and_dangling st);
    [compute_done|by apply reach_init].
Defined.

(** ** The order of the neighbours in a list does not matter *)

Lemma same_adjacency_keys graph1 graph2 :
  same_adjacency graph1 graph2 → dict_keys graph1 = dict_keys graph2.
Proof.
  unfold dict_keys. induction 1 as [|p q g1 g2 [Hk _] _ IH]; [done|].
  rewrite !fmap_cons. by f_equal.
Qed.

Lemma same_adjacency_get graph1 graph2 v :
  same_adjacency graph1 graph2 →
  match dict_get graph1 v, dict_get graph2 v with
  | Some n1, Some n2 => n1 ≡ₚ n2
  | None, None => True
  | _, _ => False
  end.
Proof.
  induction 1 as [|[k1 n1] [k2 n2] g1 g2 [Hk Hn] _ IH]; [done|].
  simpl in *. subst k2. by case_decide.
Qed.

Lemma colors_among_perm cs n1 n2 :
  n1 ≡ₚ n2 → colors_among cs n1 = colors_among cs n2.
Proof.
  intros Hperm. apply set_eq. intros c. rewrite !elem_of_colors_among.
  split; intros (n & Hn & Hget); exists n; (split; [|done]).
  - by rewrite <-Hperm.
  - by rewrite Hperm.
Qed.

Lemma same_adjacency_degree graph1 graph2 :
  same_adjacency graph1 graph2 → NoDup (dict_keys graph1) →
  degree_of graph1 = degree_of graph2.
Proof.
  intros Hsame Hnd. apply map_eq. intros v.
  rewrite !degree_of_lookup;
    [|by rewrite <-(same_adjacency_keys _ _ Hsame)|done].
  pose proof (same_adjacency_get _ _ v Hsame) as Hget.
  destruct (dict_get graph1 v), (dict_get graph2 v); try done.
  simpl. f_equal. by apply Permutation_length.
Qed.

Lemma same_adjacency_dsat_value graph1 graph2 cs v :
  same_adjacency graph1 graph2 →
  dsat_value graph1 cs v = dsat_value graph2 cs v.
Proof.
  intros Hsame. unfold dsat_value.
  pose proof (same_adjacency_get _ _ v Hsame) as Hget.
  destruct (dict_get graph1 v) as [n1|], (dict_get graph2 v) as [n2|];
    try done.
  rewrite (colors_among_perm cs n1 n2 Hget).
  by rewrite (Permutation_length Hget).
Qed.

Lemma same_adjacency_getitem graph1 graph2 v :
  same_adjacency graph1 graph2 →
  (getitem graph1 v = Raise KeyError ∧ getitem graph2 v = Raise KeyError) ∨
  (∃ n1 n2, getitem graph1 v = Ok n1 ∧ getitem graph2 v = Ok n2 ∧ n1 ≡ₚ n2).
Proof.
  intros Hsame. unfold getitem.
  pose proof (same_adjacency_get _ _ v Hsame) as Hget.
  destruct (dict_get graph1 v) as [n1|], (dict_get graph2 v) as [n2|];
    try done; [right; by exists n1, n2|by left].
Qed.

Lemma init_same `{SetOrder} graph1 graph2 :
  same_adjacency graph1 graph2 → NoDup (dict_keys graph1) →
  init graph1 = init graph2.
Proof.
  intros Hsame Hnd. unfold init.
  rewrite <-(same_adjacency_degree _ _ Hsame Hnd).
  rewrite <-(same_adjacency_keys _ _ Hsame).
  destruct (for_each _ ∅ (dict_keys graph1)) as [m0|]; [|done].
  rewrite !bind_Ok_l.
  destruct (py_max _ _ _) as [v|]; [|done]. rewrite !bind_Ok_l.
  unfold set_remove. case_decide as Hv; [|done]. rewrite !bind_Ok_l.
  destruct (same_adjacency_getitem _ _ v Hsame)
    as [[-> ->]|(n1 & n2 & -> & -> & Hperm)]; [done|].
  rewrite !bind_Ok_l.
  assert (∀ w, w ∈ filter (λ y, y ≠ v) (set_iter (dict_keys graph1)) →
               w ∈ dict_keys graph1) as Hunc1.
  { intros w [_ Hw]%list_elem_of_filter.
    by apply (set_iter_elem (dict_keys graph1) w). }
  destruct (for_each_update_first graph1 (dict_set [] v 1) _ n1 m0 Hunc1)
    as (m1 & -> & Hm1).
  destruct (for_each_update_first graph2 (dict_set [] v 1)
              (filter (λ y, y ≠ v) (set_iter (dict_keys graph1))) n2 m0)
    as (m2 & -> & Hm2).
  { intros w Hw. rewrite <-(same_adjacency_keys _ _ Hsame). by apply Hunc1. }
  rewrite !bind_Ok_l. do 2 f_equal. apply map_eq. intros w.
  rewrite Hm1, Hm2.
  pose proof (same_adjacency_get _ _ w Hsame) as Hget.
  destruct (decide (w ∈ n1 ∧ w ∈ _)) as [[Hw1 Hw2]|Hw].
  - rewrite decide_True by (by rewrite <-Hperm).
    destruct (dict_get graph1 w) as [k1|], (dict_get graph2 w) as [k2|];
      try done.
    simpl. by rewrite (colors_among_perm _ k1 k2 Hget).
  - rewrite decide_False; [done|]. by rewrite <-Hperm.
Qed.

Lemma step_same graph1 graph2 st :
  same_adjacency graph1 graph2 → NoDup (dict_keys graph1) →
  inv graph1 st → step graph1 st = step graph2 st.
Proof.
  intros Hsame Hnd [_ Hkeys _ _]. unfold step, next_vertex.
  rewrite <-(same_adjacency_degree _ _ Hsame Hnd).
  destruct (py_max _ _ _) as [v|]; [|done]. rewrite !bind_Ok_l.
  destruct (same_adjacency_getitem _ _ v Hsame)
    as [[-> ->]|(n1 & n2 & -> & -> & Hperm)]; [done|].
  rewrite !bind_Ok_l.
  rewrite <-(colors_among_perm (colors st) n1 n2 Hperm).
  unfold set_remove. case_decide as Hv; [|done]. rewrite !bind_Ok_l.
  assert (∀ w, w ∈ filter (λ y, y ≠ v) (uncolored st) →
               w ∈ dict_keys graph1) as Hunc1.
  { intros w [_ Hw]%list_elem_of_filter. apply Hkeys, elem_of_app. by right. }
  destruct (for_each_update_dsat graph1
              (dict_set (colors st) v
                 (smallest_color (colors_among (colors st) n1)))
              _ n1 (dsat st) Hnd Hunc1) as (m1 & -> & Hm1).
  destruct (for_each_update_dsat graph2
              (dict_set (colors st) v
                 (smallest_color (colors_among (colors st) n1)))
              (filter (λ y, y ≠ v) (uncolored st)) n2 (dsat st))
    as (m2 & Hrun2 & Hm2).
  { by rewrite <-(same_adjacency_keys _ _ Hsame). }
  { intros w Hw. rewrite <-(same_adjacency_keys _ _ Hsame). by apply Hunc1. }
  rewrite <-(same_adjacency_degree _ _ Hsame Hnd) in Hrun2. rewrite Hrun2.
  rewrite !bind_Ok_l. do 2 f_equal. apply map_eq. intros w.
  rewrite Hm1, Hm2, (same_adjacency_dsat_value _ _ _ w Hsame).
  destruct (decide (w ∈ n1 ∧ w ∈ _)) as [[Hw1 Hw2]|Hw].
  - by rewrite decide_True by (by rewrite <-Hperm).
  - rewrite decide_False; [done|]. by rewrite <-Hperm.
Qed.

Lemma loop_same graph1 graph2 fuel st :
  same_adjacency graph1 graph2 → NoDup (dict_keys graph1) →
  inv graph1 st → loop fuel graph1 st = loop fuel graph2 st.
Proof.
  intros Hsame Hnd. revert st. induction fuel as [|fuel IH]; intros st Hinv;
    simpl; destruct (uncolored st) as [|x unc] eqn:Hunc; try done.
  rewrite <-(step_same _ _ st Hsame Hnd Hinv).
  destruct (step graph1 st) as [st'|] eqn:Hstep; [|done].
  rewrite !bind_Ok_l. apply IH. eapply step_inv; [done..| |done].
  by rewrite Hunc.
Qed.

(** X6: listing the neighbours of a vertex in another order changes nothing:
    two graphs with the same vertices in the same order, whose neighbour
    lists are permutations of each other, get the same assignment (or the
    same error). *)
Theorem dsatur_neighbor_order `{SetOrder} graph1 graph2 :
  same_adjacency graph1 graph2 → NoDup (dict_keys graph1) →
  dsatur graph1 = dsatur graph2.
Proof.
  intros Hsame Hnd. unfold dsatur, dsatur_fuel.
  rewrite <-(init_same _ _ Hsame Hnd), <-(Forall2_length _ _ _ Hsame).
  destruct (init graph1) as [st|] eqn:Hinit; [|done].
  rewrite !bind_Ok_l. apply loop_same; [done..|]. by apply init_inv.
Qed.

Lemma dsatur_neighbor_order_witness :
  dsatur path4 =
  dsatur [(1, [2]); (2, [3; 1]); (3, [4; 2]); (4, [3])]%Z.
Proof.
  apply (dsatur_neighbor_order path4); [|compute_done].
  repeat constructor; simpl; apply Permutation_swap.
Defined.

(** * Properties of [visualize_graph] *)

(** ** The palette *)

(** X7: the position read in the palette is always one of its twenty entries,
    and two colours are drawn with the same entry exactly when they differ
    by a multiple of twenty. *)
Theorem palette_index_wraps c1 c2 :
  (0 ≤ palette_index c1 < palette_size)%Z ∧
  (palette_index c1 = palette_index c2 ↔ c1 `mod` 20 = c2 `mod` 20).
Proof.
  unfold palette_index, palette_size.
  rewrite <-(Nat2Z.inj_iff (c1 `mod` 20)), !Nat2Z.inj_mod.
  change (Z.of_nat 20) with 20%Z.
  Z.div_mod_to_equations. lia.
Qed.

Lemma palette_index_inj c1 c2 :
  1 ≤ c1 → c1 ≤ 20 → 1 ≤ c2 → c2 ≤ 20 →
  palette_index c1 = palette_index c2 → c1 = c2.
Proof.
  unfold palette_index, palette_size. intros ? ? ? ?.
  rewrite !Z.mod_small by lia. lia.
Qed.

(** ** The nodes that are drawn *)

Lemma elem_of_add_node nodes n x : x ∈ add_node nodes n ↔ x ∈ nodes ∨ x = n.
Proof.
  unfold add_node. case_decide as Hn.
  - split; [by left|]. by intros [?| ->].
  - rewrite elem_of_app, list_elem_of_singleton. done.
Qed.

Lemma NoDup_add_node nodes n : NoDup nodes → NoDup (add_node nodes n).
Proof.
  intros Hnd. unfold add_node. case_decide as Hn; [done|].
  apply NoDup_app. split; [done|]. split; [|apply NoDup_singleton].
  intros x Hx ->%list_elem_of_singleton. done.
Qed.

Lemma elem_of_add_edges nodes u ns x :
  x ∈ foldl (λ nodes neighbor, add_edge nodes u neighbor) nodes ns ↔
  x ∈ nodes ∨ (x = u ∧ ns ≠ []) ∨ x ∈ ns.
Proof.
  revert nodes. induction ns as [|n ns IH]; intros nodes; simpl.
  - split; [by left|]. intros [?|[[_ ?]|?%elem_of_nil] ]; done.
  - rewrite IH. unfold add_edge. rewrite !elem_of_add_node, elem_of_cons.
    naive_solver.
Qed.

Lemma NoDup_add_edges nodes u ns :
  NoDup nodes →
  NoDup (foldl (λ nodes neighbor, add_edge nodes u neighbor) nodes ns).
Proof.
  revert nodes. induction ns as [|n ns IH]; intros nodes Hnd; simpl; [done|].
  apply IH. unfold add_edge. by do 2 apply NoDup_add_node.
Qed.

Lemma graph_nodes_spec graph nodes x :
  x ∈ foldl (λ nodes p,
               foldl (λ nodes neighbor, add_edge nodes p.1 neighbor) nodes p.2)
            nodes graph ↔
  x ∈ nodes ∨ ∃ u ns, (u, ns) ∈ graph ∧ ((x = u ∧ ns ≠ []) ∨ x ∈ ns).
Proof.
  revert nodes. induction graph as [|[u ns] graph IH]; intros nodes; simpl.
  - split; [by left|]. intros [?|(u & ns & []%elem_of_nil & _)]. done.
  - rewrite IH, elem_of_add_edges. split.
    + intros [[?|Hx]|(u' & ns' & Hin & Hx)].
      * by left.
      * right. exists u, ns. split; [left|done].
      * right. exists u', ns'. split; [by right|done].
    + intros [?|(u' & ns' & [[= -> ->]|Hin]%elem_of_cons & Hx)].
      * left. by left.
      * left. by right.
      * right. by exists u', ns'.
Qed.

(** X8: the nodes drawn are, each once, the vertices with a non-empty neighbour
    list and the entries of the neighbour lists: a vertex without neighbours
    that no other vertex lists is not drawn. *)
Theorem graph_nodes_elem graph x :
  NoDup (graph_nodes graph) ∧
  (x ∈ graph_nodes graph ↔
   ∃ u ns, (u, ns) ∈ graph ∧ ((x = u ∧ ns ≠ []) ∨ x ∈ ns)).
Proof.
  split.
  - unfold graph_nodes. generalize (NoDup_nil_2 (A := Z)).
    generalize ([] : list Z) as nodes.
    induction graph as [|[u ns] graph IH]; intros nodes Hnd; simpl; [done|].
    by apply IH, NoDup_add_edges.
  - unfold graph_nodes. rewrite graph_nodes_spec.
    split; [intros [[]%elem_of_nil|?]; done|by right].
Qed.

(** ** The colours of the nodes *)

Lemma node_colors_acc (cs : Colors) nodes acc :
  for_each (λ acc node, color ← getitem cs node;
                        Ok (acc ++ [palette_index color])) acc nodes =
  match mapM (dict_get cs) nodes with
  | Some cl => Ok (acc ++ (palette_index <$> cl))
  | None => Raise KeyError
  end.
Proof.
  revert acc. induction nodes as [|n nodes IH]; intros acc.
  - simpl. by rewrite app_nil_r.
  - rewrite for_each_cons.
    change (mapM (dict_get cs) (n :: nodes)) with
      (c ← dict_get cs n; k ← mapM (dict_get cs) nodes; mret (c :: k)).
    destruct (dict_get cs n) as [c|] eqn:Hn.
    + assert (getitem cs n = Ok c) as -> by (unfold getitem; by rewrite Hn).
      rewrite !bind_Ok_l, IH. simpl.
      destruct (mapM (dict_get cs) nodes) as [cl|]; [|done].
      simpl. by rewrite <-app_assoc.
    + assert (getitem cs n = Raise (A := nat) KeyError) as ->
        by (unfold getitem; by rewrite Hn).
      done.
Qed.

Lemma graph_nodes_keys graph :
  NoDup (dict_keys graph) →
  (∀ x, x ∈ graph_nodes graph → x ∈ dict_keys graph) ↔
  (∀ u ns v, (u, ns) ∈ graph → v ∈ ns → v ∈ dict_keys graph).
Proof.
  intros Hnd. split.
  - intros Hnodes u ns v Hin Hv. apply Hnodes, graph_nodes_elem.
    exists u, ns. split; [done|by right].
  - intros Hvalid x (u & ns & Hin & Hx)%graph_nodes_elem.
    destruct Hx as [[-> _]|Hx]; [|by eapply Hvalid].
    unfold dict_keys. apply list_elem_of_fmap. by exists (u, ns).
Qed.

Lemma node_colors_Ok graph (cs : Colors) :
  NoDup (dict_keys graph) →
  (∀ v, v ∈ dict_keys cs ↔ v ∈ dict_keys graph) →
  (∀ u ns v, (u, ns) ∈ graph → v ∈ ns → v ∈ dict_keys graph) →
  ∃ drawn, node_colors graph cs = Ok drawn ∧
    Forall2 (λ node i, ∃ c, dict_get cs node = Some c ∧ i = palette_index c)
            (graph_nodes graph) drawn.
Proof.
  intros Hnd Hkeys Hvalid.
  unfold node_colors. rewrite node_colors_acc.
  destruct (mapM (dict_get cs) (graph_nodes graph)) as [cl|] eqn:HmapM.
  - exists (palette_index <$> cl). split; [done|].
    apply mapM_Some in HmapM. apply Forall2_fmap_r.
    eapply Forall2_impl; [done|]. intros n c Hc. by exists c.
  - apply mapM_None, Exists_exists in HmapM as (n & Hn & Hnone).
    apply (graph_nodes_keys graph Hnd) in Hn; [|done].
    apply Hkeys, dict_get_is_Some in Hn. rewrite Hnone in Hn.
    by destruct Hn.
Qed.

(** X9: after a run of [dsatur], when every entry of every neighbour list is a
    vertex of the graph, the colours of the nodes are computed without
    error: one palette position per node drawn, that of the colour the node
    was assigned. *)
Theorem node_colors_valid `{SetOrder} graph cs :
  NoDup (dict_keys graph) → dsatur graph = Ok cs →
  (∀ u ns v, (u, ns) ∈ graph → v ∈ ns → v ∈ dict_keys graph) →
  ∃ drawn, node_colors graph cs = Ok drawn ∧
    Forall2 (λ node i, ∃ c, dict_get cs node = Some c ∧ i = palette_index c)
            (graph_nodes graph) drawn.
Proof.
  intros Hnd Hrun Hvalid.
  destruct (dsatur_result graph Hnd (dsatur_Ok_nonempty _ _ Hrun))
    as (cs' & Hrun' & _ & Hkeys & _).
  assert (cs' = cs) as -> by congruence.
  by apply node_colors_Ok.
Qed.

Lemma node_colors_valid_witness :
  ∃ drawn,
    node_colors path4 [(2%Z, 1); (3%Z, 2); (1%Z, 2); (4%Z, 1)] = Ok drawn ∧
    Forall2 (λ node i, ∃ c,
               dict_get [(2%Z, 1); (3%Z, 2); (1%Z, 2); (4%Z, 1)] node = Some c
               ∧ i = palette_index c)
            (graph_nodes path4) drawn.
Proof.
  apply (node_colors_valid path4); [compute_done|by vm_compute|].
  intros u ns v Hin Hv. unfold path4 in Hin.
  repeat (apply elem_of_cons in Hin as [Hin|Hin]; simplify_eq);
    try (by apply elem_of_nil in Hin);
    repeat (apply elem_of_cons in Hv as [Hv|Hv]; simplify_eq);
    try (by apply elem_of_nil in Hv); compute_done.
Defined.

(** X10: a graph that names a neighbour that is not one of its vertices is
    coloured by [dsatur], but the colours of the nodes cannot be computed
    from the result: the look-up of the colour of that neighbour raises
    [KeyError]. *)
Theorem node_colors_dangling `{SetOrder} graph cs u ns v :
  NoDup (dict_keys graph) → dsatur graph = Ok cs →
  (u, ns) ∈ graph → v ∈ ns → v ∉ dict_keys graph →
  node_colors graph cs = Raise KeyError.
Proof.
  intros Hnd Hrun Hin Hv Hdangling.
  destruct (dsatur_result graph Hnd (dsatur_Ok_nonempty _ _ Hrun))
    as (cs' & Hrun' & _ & Hkeys & _).
  assert (cs' = cs) as -> by congruence.
  unfold node_colors. rewrite node_colors_acc.
  destruct (mapM (dict_get cs) (graph_nodes graph)) as [cl|] eqn:HmapM;
    [|done].
  assert (is_Some (mapM (dict_get cs) (graph_nodes graph))) as Hsome
    by (by rewrite HmapM).
  apply mapM_is_Some in Hsome. rewrite Forall_forall in Hsome.
  destruct (Hsome v) as [c Hc].
  { apply graph_nodes_elem. exists u, ns. split; [done|by right]. }
  destruct Hdangling. apply Hkeys, dict_get_is_Some. by rewrite Hc.
Qed.

Lemma node_colors_dangling_witness :
  node_colors loop_and_dangling [(1%Z, 1)] = Raise KeyError.
Proof.
  apply (node_colors_dangling loop_and_dangling _ 1%Z [1; 2]%Z 2%Z);
    [compute_done|by vm_compute|compute_done|compute_done|compute_done].
Defined.

Lemma greedy_log_range graph cs v c :
  greedy_log graph cs → dict_get cs v = Some c →
  ∃ ns, dict_get graph v = Some ns ∧ 1 ≤ c ∧ c ≤ length ns + 1.
Proof.
  intros Hlog Hc.
  destruct (dict_split cs v c Hc) as (pre & post & Hsplit & _).
  destruct (Hlog pre v c post Hsplit) as (ns & Hns & ->).
  exists ns. split; [done|].
  pose proof (smallest_color_pos (colors_among pre ns)).
  pose proof (smallest_color_le (colors_among pre ns)).
  pose proof (colors_among_size pre ns). lia.
Qed.

(** X11: when no neighbour list has twenty entries or more, two distinct vertices
    that list each other are drawn with different entries of the palette. *)
Theorem adjacent_palette_distinct `{SetOrder} graph cs u v cu cv :
  NoDup (dict_keys graph) → dsatur graph = Ok cs →
  (∀ w nw, dict_get graph w = Some nw → length nw < 20) →
  mutual_edge graph u v → u ≠ v →
  dict_get cs u = Some cu → dict_get cs v = Some cv →
  palette_index cu ≠ palette_index cv.
Proof.
  intros Hnd Hrun Hbound Hedge Hne Hcu Hcv.
  destruct (dsatur_result graph Hnd (dsatur_Ok_nonempty _ _ Hrun))
    as (cs' & Hrun' & _ & _ & Hlog).
  assert (cs' = cs) as -> by congruence.
  destruct (greedy_log_range graph cs u cu Hlog Hcu) as (nu & Hnu & ? & ?).
  destruct (greedy_log_range graph cs v cv Hlog Hcv) as (nv & Hnv & ? & ?).
  pose proof (Hbound u nu Hnu). pose proof (Hbound v nv Hnv).
  intros Heq. apply palette_index_inj in Heq; [|lia..].
  by apply (greedy_log_proper graph cs Hlog u v cu cv).
Qed.

Lemma adjacent_palette_distinct_witness :
  palette_index 1 ≠ palette_index 2.
Proof.
  apply (adjacent_palette_distinct path4
           [(2%Z, 1); (3%Z, 2); (1%Z, 2); (4%Z, 1)] 2%Z 3%Z 1 2);
    [compute_done|by vm_compute| | |done|done|done].
  - intros w nw Hw. unfold path4 in Hw. simpl in Hw.
    repeat case_decide; simplify_eq; simpl; lia.
  - split; [exists [1; 3]%Z|exists [2; 4]%Z]; (split; [done|compute_done]).
Defined.

(** * Properties of [main] *)

(** ** The graph built by the form *)

Lemma elem_of_vertices n v :
  v ∈ vertices n ↔ (1 ≤ v ∧ v ≤ Z.of_nat n)%Z.
Proof.
  unfold vertices. rewrite list_elem_of_fmap. split.
  - intros (i & -> & Hi%elem_of_seq). lia.
  - intros [Hlo Hhi]. exists (Z.to_nat (v - 1)). split; [lia|].
    apply elem_of_seq. lia.
Qed.

Lemma NoDup_vertices n : NoDup (vertices n).
Proof.
  unfold vertices. apply NoDup_fmap_2; [|apply NoDup_seq].
  intros i j Hij. lia.
Qed.

Lemma dict_set_fmap {A} (f : Z → A) (ks : list Z) x a :
  NoDup ks → x ∈ ks →
  dict_set ((λ v, (v, f v)) <$> ks) x a =
  (λ v, (v, if decide (v = x) then a else f v)) <$> ks.
Proof.
  induction ks as [|k ks IH]; intros Hnd Hx; [by apply elem_of_nil in Hx|].
  apply NoDup_cons in Hnd as [Hk Hnd]. rewrite !fmap_cons. simpl.
  destruct (decide (k = x)) as [->|Hne].
  - f_equal. apply list_fmap_ext. intros i v Hv.
    rewrite decide_False; [done|]. intros ->.
    apply Hk. by eapply list_elem_of_lookup_2.
  - f_equal. apply IH; [done|].
    apply elem_of_cons in Hx as [->|Hx]; done.
Qed.

Lemma foldl_dict_set_fmap {A} (sel f : Z → A) (ks l : list Z) :
  NoDup ks → (∀ x, x ∈ l → x ∈ ks) →
  foldl (λ graph vertex, dict_set graph vertex (sel vertex))
        ((λ v, (v, f v)) <$> ks) l =
  (λ v, (v, if decide (v ∈ l) then sel v else f v)) <$> ks.
Proof.
  intros Hnd. revert f. induction l as [|x l IH]; intros f Hl; cbn [foldl].
  - apply list_fmap_ext. intros i v _. rewrite decide_False; [done|].
    apply not_elem_of_nil.
  - rewrite dict_set_fmap by (done || apply Hl; left).
    rewrite IH by (intros y Hy; apply Hl; by right).
    apply list_fmap_ext. intros i v _. f_equal.
    destruct (decide (v ∈ l)) as [Hv|Hv].
    + rewrite decide_True; [done|by right].
    + destruct (decide (v = x)) as [->|Hne].
      * rewrite decide_True; [done|left].
      * rewrite decide_False; [done|]. rewrite elem_of_cons. tauto.
Qed.

Lemma ui_graph_eq n selected :
  ui_graph n selected = (λ v, (v, selected v)) <$> vertices n.
Proof.
  unfold ui_graph.
  rewrite (foldl_dict_set_fmap selected (λ _, []) (vertices n) (vertices n))
    by (apply NoDup_vertices || done).
  apply list_fmap_ext. intros i v Hv. rewrite decide_True; [done|].
  by eapply list_elem_of_lookup_2.
Qed.

Lemma ui_graph_keys n selected : dict_keys (ui_graph n selected) = vertices n.
Proof.
  unfold dict_keys. rewrite ui_graph_eq, <-list_fmap_compose.
  rewrite <-(list_fmap_id (vertices n)) at 2. by apply list_fmap_ext.
Qed.

Lemma ui_graph_elem n selected u ns :
  (u, ns) ∈ ui_graph n selected ↔ u ∈ vertices n ∧ ns = selected u.
Proof.
  rewrite ui_graph_eq, list_elem_of_fmap. split.
  - by intros (v & [= -> ->] & Hv).
  - intros [Hu ->]. by exists u.
Qed.

Lemma ui_graph_get n selected v :
  v ∈ vertices n → dict_get (ui_graph n selected) v = Some (selected v).
Proof.
  intros Hv.
  assert ((v, selected v) ∈ ui_graph n selected) as Hin
    by (by apply ui_graph_elem).
  apply list_elem_of_split in Hin as (d1 & d2 & Heq).
  rewrite Heq. apply dict_get_middle. intros Hv1.
  pose proof (NoDup_vertices n) as Hnd.
  rewrite <-(ui_graph_keys n selected), Heq, dict_keys_app in Hnd.
  apply NoDup_app in Hnd as (_ & Hdisj & _).
  eapply Hdisj; [exact Hv1|left].
Qed.

(** X12: the graph the form builds has the vertices 1, ..., n in this order, the
    neighbour list of each vertex is the list selected for it, and, as a
    multiselect only returns options it offers, no list names the vertex
    itself or a vertex that does not exist. *)
Theorem ui_graph_well_formed n selected :
  valid_selection n selected →
  dict_keys (ui_graph n selected) = vertices n ∧
  NoDup (dict_keys (ui_graph n selected)) ∧
  (∀ v, v ∈ vertices n → dict_get (ui_graph n selected) v = Some (selected v)) ∧
  ¬ invalid_adjacency (ui_graph n selected).
Proof.
  intros Hvalid. split; [apply ui_graph_keys|].
  split; [rewrite ui_graph_keys; apply NoDup_vertices|].
  split; [apply ui_graph_get|].
  intros (u & ns & v & Hu & Hv & Hbad).
  assert (u ∈ vertices n) as Hkey.
  { rewrite <-(ui_graph_keys n selected). apply dict_get_is_Some.
    by rewrite Hu. }
  rewrite ui_graph_get in Hu by done. injection Hu as <-.
  destruct (Hvalid u Hkey) as [_ Hopt]. apply Hopt in Hv.
  unfold neighbors_options in Hv. apply list_elem_of_filter in Hv as [Hne Hv].
  destruct Hbad as [->|Hbad]; [done|].
  apply Hbad. by rewrite ui_graph_keys.
Qed.

Lemma pair_selection_valid : valid_selection 3 pair_selection.
Proof.
  intros v Hv. change (vertices 3) with [1; 2; 3]%Z in Hv.
  unfold neighbors_options. change (vertices 3) with [1; 2; 3]%Z.
  repeat (apply elem_of_cons in Hv as [->|Hv]);
    try (by apply elem_of_nil in Hv);
    (split; [compute_done|]); intros x Hx; vm_compute in Hx;
    repeat (apply elem_of_cons in Hx as [->|Hx]);
    try (by apply elem_of_nil in Hx); compute_done.
Qed.

Lemma ui_graph_well_formed_witness :
  dict_keys (ui_graph 3 pair_selection) = vertices 3 ∧
  NoDup (dict_keys (ui_graph 3 pair_selection)) ∧
  (∀ v, v ∈ vertices 3 →
        dict_get (ui_graph 3 pair_selection) v = Some (pair_selection v)) ∧
  ¬ invalid_adjacency (ui_graph 3 pair_selection).
Proof. apply (ui_graph_well_formed 3 pair_selection pair_selection_valid). Defined.

(** ** Pressing the button *)

Lemma any_values_true (graph : Graph) :
  any_values graph = true ↔ ∃ u ns, (u, ns) ∈ graph ∧ ns ≠ [].
Proof.
  unfold any_values. rewrite existsb_exists. split.
  - intros ([u ns] & Hin%list_elem_of_In & Hns). exists u, ns.
    split; [done|]. by destruct ns.
  - intros (u & ns & Hin & Hns). exists (u, ns).
    split; [by apply list_elem_of_In|]. by destruct ns.
Qed.

Lemma ui_graph_any n selected :
  any_values (ui_graph n selected) = true ↔
  ∃ v, v ∈ vertices n ∧ selected v ≠ [].
Proof.
  rewrite any_values_true. split.
  - intros (u & ns & [Hu ->]%ui_graph_elem & Hns). by exists u.
  - intros (v & Hv & Hns). exists v, (selected v).
    split; [by apply ui_graph_elem|done].
Qed.

Lemma ui_graph_valid n selected u ns v :
  valid_selection n selected →
  (u, ns) ∈ ui_graph n selected → v ∈ ns →
  v ∈ dict_keys (ui_graph n selected) ∧ v ≠ u.
Proof.
  intros Hvalid [Hu ->]%ui_graph_elem Hv.
  destruct (Hvalid u Hu) as [_ Hopt]. apply Hopt in Hv.
  unfold neighbors_options in Hv. apply list_elem_of_filter in Hv as [Hne Hv].
  by rewrite ui_graph_keys.
Qed.

(** X13: with selections a multiselect can return, pressing the button never
    fails.  When every selection is empty the warning is shown and [dsatur]
    is not called; otherwise [dsatur] colours every vertex, the report is
    built from its result and the colours of all the nodes drawn are
    found. *)
Theorem main_never_raises `{SetOrder} n selected :
  valid_selection n selected →
  ((∀ v, v ∈ vertices n → selected v = []) ∧
   main n selected = Ok Warning) ∨
  ((∃ v, v ∈ vertices n ∧ selected v ≠ []) ∧
   ∃ cs drawn,
     main n selected = Ok (Shown cs (sorted_items cs) drawn) ∧
     dsatur (ui_graph n selected) = Ok cs ∧
     node_colors (ui_graph n selected) cs = Ok drawn ∧
     (∀ v, v ∈ vertices n → is_Some (dict_get cs v)) ∧
     length drawn = length (graph_nodes (ui_graph n selected))).
Proof.
  intros Hvalid. unfold main.
  destruct (any_values (ui_graph n selected)) eqn:Hany.
  - right. apply ui_graph_any in Hany as Hsome. split; [done|].
    assert (NoDup (dict_keys (ui_graph n selected))) as Hnd
      by (rewrite ui_graph_keys; apply NoDup_vertices).
    assert (ui_graph n selected ≠ []) as Hne.
    { destruct Hsome as (v & Hv & _). intros Hnil.
      rewrite <-(ui_graph_keys n selected), Hnil in Hv.
      by apply elem_of_nil in Hv. }
    destruct (dsatur_result _ Hnd Hne) as (cs & Hrun & _ & Hkeys & _).
    destruct (node_colors_Ok (ui_graph n selected) cs Hnd Hkeys)
      as (drawn & Hdrawn & Hall).
    { intros u ns v Hin Hv. by eapply ui_graph_valid. }
    exists cs, drawn. rewrite Hrun, bind_Ok_l, Hdrawn, bind_Ok_l.
    repeat split; try done.
    + intros v Hv. apply dict_get_is_Some, Hkeys. by rewrite ui_graph_keys.
    + symmetry. by eapply Forall2_length.
  - left. split; [|done]. intros v Hv.
    destruct (selected v) as [|x l] eqn:Hsel; [done|].
    assert (any_values (ui_graph n selected) = true) as Htrue; [|congruence].
    apply ui_graph_any. exists v. by rewrite Hsel.
Qed.

Lemma main_never_raises_witness :
  ((∀ v, v ∈ vertices 3 → pair_selection v = []) ∧
   main 3 pair_selection = Ok Warning) ∨
  ((∃ v, v ∈ vertices 3 ∧ pair_selection v ≠ []) ∧
   ∃ cs drawn,
     main 3 pair_selection = Ok (Shown cs (sorted_items cs) drawn) ∧
     dsatur (ui_graph 3 pair_selection) = Ok cs ∧
     node_colors (ui_graph 3 pair_selection) cs = Ok drawn ∧
     (∀ v, v ∈ vertices 3 → is_Some (dict_get cs v)) ∧
     length drawn = length (graph_nodes (ui_graph 3 pair_selection))).
Proof. apply (main_never_raises 3 pair_selection pair_selection_valid). Defined.

Lemma valid_selection_length n selected v :
  valid_selection n selected → v ∈ vertices n →
  S (length (selected v)) ≤ n.
Proof.
  intros Hvalid Hv. destruct (Hvalid v Hv) as [Hnd Hopt].
  assert (length (selected v) ≤ length (neighbors_options n v)) as Hle.
  { apply submseteq_length, NoDup_submseteq; done. }
  assert (S (length (neighbors_options n v)) = n) as Hopts; [|lia].
  unfold neighbors_options.
  change (S (length ?l)) with (length (v :: l)).
  rewrite (Permutation_length (filter_ne_perm (vertices n) v
                                 (NoDup_vertices n) Hv)).
  unfold vertices. by rewrite length_fmap, length_seq.
Qed.

(** X14: with at most twenty vertices, two vertices that selected each other are
    shown with different colours, and drawn with different entries of the
    palette. *)
Theorem main_adjacent_distinct `{SetOrder} n selected cs report drawn u v :
  n ≤ 20 → valid_selection n selected →
  main n selected = Ok (Shown cs report drawn) →
  u ∈ vertices n → v ∈ selected u → u ∈ selected v →
  ∃ cu cv, dict_get cs u = Some cu ∧ dict_get cs v = Some cv ∧
           cu ≠ cv ∧ palette_index cu ≠ palette_index cv.
Proof.
  intros Hn Hvalid Hmain Hu Hvu Huv.
  assert (v ∈ vertices n ∧ v ≠ u) as [Hv Hne].
  { destruct (Hvalid u Hu) as [_ Hopt]. apply Hopt in Hvu.
    unfold neighbors_options in Hvu.
    by apply list_elem_of_filter in Hvu as [? ?]. }
  assert (NoDup (dict_keys (ui_graph n selected))) as Hnd
    by (rewrite ui_graph_keys; apply NoDup_vertices).
  unfold main in Hmain.
  destruct (any_values (ui_graph n selected)); [|done].
  destruct (dsatur (ui_graph n selected)) as [cs'|] eqn:Hrun; [|done].
  rewrite bind_Ok_l in Hmain.
  destruct (node_colors (ui_graph n selected) cs'); [|done].
  rewrite bind_Ok_l in Hmain. injection Hmain as -> _ _.
  destruct (dsatur_result _ Hnd (dsatur_Ok_nonempty _ _ Hrun))
    as (cs' & Hrun' & _ & Hkeys & Hlog).
  assert (cs' = cs) as -> by congruence.
  assert (is_Some (dict_get cs u)) as [cu Hcu].
  { apply dict_get_is_Some, Hkeys. by rewrite ui_graph_keys. }
  assert (is_Some (dict_get cs v)) as [cv Hcv].
  { apply dict_get_is_Some, Hkeys. by rewrite ui_graph_keys. }
  exists cu, cv. split; [done|]. split; [done|].
  assert (cu ≠ cv) as Hdiff.
  { apply (greedy_log_proper _ cs Hlog u v cu cv); [|by intros ->|done..].
    split; [exists (selected u)|exists (selected v)];
      (split; [by apply ui_graph_get|done]). }
  split; [done|].
  destruct (greedy_log_range _ cs u cu Hlog Hcu) as (nu & Hnu & ? & ?).
  destruct (greedy_log_range _ cs v cv Hlog Hcv) as (nv & Hnv & ? & ?).
  rewrite ui_graph_get in Hnu, Hnv by done.
  injection Hnu as <-. injection Hnv as <-.
  pose proof (valid_selection_length n selected u Hvalid Hu).
  pose proof (valid_selection_length n selected v Hvalid Hv).
  intros Heq. apply palette_index_inj in Heq; [done|lia..].
Qed.

Lemma main_adjacent_distinct_witness :
  ∃ cu cv, dict_get [(1%Z, 1); (2%Z, 2); (3%Z, 1)] 1%Z = Some cu ∧
           dict_get [(1%Z, 1); (2%Z, 2); (3%Z, 1)] 2%Z = Some cv ∧
           cu ≠ cv ∧ palette_index cu ≠ palette_index cv.
Proof.
  apply (main_adjacent_distinct 3 pair_selection
           [(1%Z, 1); (2%Z, 2); (3%Z, 1)]
           [(1%Z, 1); (2%Z, 2); (3%Z, 1)] [0; 1]%Z 1%Z 2%Z);
    [lia|exact pair_selection_valid|by vm_compute|
     compute_done|compute_done|compute_done].
Defined.

(** ** The report *)

Global Instance item_le_trans : Transitive item_le.
Proof. intros a b c. unfold item_le. lia. Qed.

Global Instance item_le_antisymm : AntiSymm (=) item_le.
Proof.
  intros [v1 c1] [v2 c2]. unfold item_le. simpl. intros H1 H2.
  f_equal; lia.
Qed.

Global Instance item_le_total : Total item_le.
Proof. intros a b. unfold item_le. lia. Qed.

Lemma Sorted_vertices n : Sorted Z.le (vertices n).
Proof.
  unfold vertices. generalize 0 as s.
  induction n as [|n IH]; intros s; [constructor|].
  simpl. constructor; [apply IH|].
  destruct n; simpl; constructor. lia.
Qed.

Lemma NoDup_dict_elem {A} (d : dict A) k a :
  NoDup (dict_keys d) → (k, a) ∈ d ↔ dict_get d k = Some a.
Proof.
  intros Hnd. split; [|apply dict_get_Some_elem].
  intros (d1 & d2 & ->)%list_elem_of_split.
  apply dict_get_middle. rewrite dict_keys_app in Hnd.
  apply NoDup_app in Hnd as (_ & Hdisj & _).
  intros Hk. eapply Hdisj; [exact Hk|left].
Qed.

(** X15: the report has one item per vertex, in the order 1, ..., n of the
    vertices, and the item of a vertex carries the colour assigned to it. *)
Theorem main_report_sorted `{SetOrder} n selected cs report drawn :
  main n selected = Ok (Shown cs report drawn) →
  report.*1 = vertices n ∧
  ∀ v c, (v, c) ∈ report ↔ dict_get cs v = Some c.
Proof.
  intros Hmain.
  assert (NoDup (dict_keys (ui_graph n selected))) as Hnd
    by (rewrite ui_graph_keys; apply NoDup_vertices).
  unfold main in Hmain.
  destruct (any_values (ui_graph n selected)); [|done].
  destruct (dsatur (ui_graph n selected)) as [cs'|] eqn:Hrun; [|done].
  rewrite bind_Ok_l in Hmain.
  destruct (node_colors (ui_graph n selected) cs'); [|done].
  rewrite bind_Ok_l in Hmain. injection Hmain as -> <- _.
  destruct (dsatur_result _ Hnd (dsatur_Ok_nonempty _ _ Hrun))
    as (cs' & Hrun' & Hnodup & Hkeys & _).
  assert (cs' = cs) as -> by congruence.
  unfold sorted_items.
  pose proof (merge_sort_Permutation item_le cs) as Hperm.
  split.
  - apply (Sorted_unique Z.le).
    + eapply Sorted_fmap with (R1 := item_le);
        [|apply Sorted_merge_sort, _].
      intros p q. unfold item_le. lia.
    + apply Sorted_vertices.
    + rewrite Hperm.
      apply NoDup_Permutation; [exact Hnodup|apply NoDup_vertices|].
      intros v. rewrite <-(ui_graph_keys n selected). apply Hkeys.
  - intros v c. rewrite Hperm. by apply NoDup_dict_elem.
Qed.

Lemma main_report_sorted_witness :
  [(1%Z, 1); (2%Z, 2); (3%Z, 1)].*1 = vertices 3 ∧
  ∀ v c, (v, c) ∈ [(1%Z, 1); (2%Z, 2); (3%Z, 1)] ↔
         dict_get [(1%Z, 1); (2%Z, 2); (3%Z, 1)] v = Some c.
Proof.
  apply (main_report_sorted 3 pair_selection
           [(1%Z, 1); (2%Z, 2); (3%Z, 1)]
           [(1%Z, 1); (2%Z, 2); (3%Z, 1)] [0; 1]%Z).
  by vm_compute.
Defined.

(** * Runs under different set orders *)

Lemma py_max_elem {K} (lt : K → K → bool) (key : Z → res K) l v :
  py_max lt key l = Ok v → v ∈ l.
Proof.
  assert (∀ l best bk, max_loop lt key best bk l = Ok v →
            v = best ∨ v ∈ l) as Hloop.
  { clear. induction l as [|x l IH]; intros best bk Hv; simpl in Hv.
    - left. by injection Hv.
    - destruct (key x) as [k|]; [|done]. rewrite bind_Ok_l in Hv.
      destruct (lt bk k); apply IH in Hv as [->|Hv];
        rewrite ?elem_of_cons; tauto. }
  destruct l as [|x l]; [done|]. simpl.
  destruct (key x) as [k|]; [|done]. rewrite bind_Ok_l.
  intros [->|Hv]%Hloop; [left|by right].
Qed.

Lemma same_state_inv graph st1 st2 :
  same_state st1 st2 → inv graph st1 → inv graph st2.
Proof.
  intros (Hcs & Hdsat & Hunc) [Hnodup Hkeys Hdom Hlog].
  split; rewrite <-?Hcs, <-?Hdsat; [by rewrite <-Hunc| |done..].
  intros v. by rewrite <-Hunc.
Qed.

(** The vertex chosen by [max] has a key no other candidate exceeds. *)
Lemma first_max_upper l v (key : Z → res (nat * nat)) w kv kw :
  first_max pair_lt key l v → w ∈ l → key v = Ok kv → key w = Ok kw →
  pair_lt kv kw = false.
Proof.
  intros (l1 & l2 & kv' & -> & Hkv & Hbefore & Hafter) Hw Hv Hkw.
  assert (kv' = kv) as -> by congruence.
  apply elem_of_app in Hw as [Hw|[->|Hw]%elem_of_cons].
  - pose proof (Hbefore w kw Hw Hkw) as Hlt.
    apply pair_lt_spec in Hlt. apply pair_lt_false. lia.
  - assert (kw = kv) as -> by congruence. apply pair_lt_false. lia.
  - by eapply Hafter.
Qed.

Lemma step_same_state `{SetOrder} graph st1 st2 :
  NoDup (dict_keys graph) → tie_free graph → reachable graph st1 →
  same_state st1 st2 → uncolored st1 ≠ [] →
  ∃ st1' st2', step graph st1 = Ok st1' ∧ step graph st2 = Ok st2' ∧
               same_state st1' st2'.
Proof.
  intros Hnd Hfree Hreach Hsame Hne.
  pose proof (reachable_inv graph st1 Hnd Hreach) as Hinv1.
  pose proof (same_state_inv graph st1 st2 Hsame Hinv1) as Hinv2.
  destruct Hsame as (Hcs & Hdsat & Hunc).
  assert (uncolored st2 ≠ []) as Hne2.
  { intros Hnil. rewrite Hnil in Hunc. by apply Permutation_nil_r in Hunc. }
  destruct (step_spec graph st1 Hnd Hinv1 Hne)
    as (st1' & v1 & n1 & Hstep1 & Hnext1 & Hmax1 & Hn1 & Hcs1 & Hunc1 & Hd1).
  destruct (step_spec graph st2 Hnd Hinv2 Hne2)
    as (st2' & v2 & n2 & Hstep2 & Hnext2 & Hmax2 & Hn2 & Hcs2 & Hunc2 & Hd2).
  pose proof (first_max_elem _ _ _ _ Hmax1) as Hv1.
  pose proof (first_max_elem _ _ _ _ Hmax2) as Hv2.
  assert (v2 ∈ uncolored st1) as Hv21 by (by rewrite Hunc).
  assert (v1 ∈ uncolored st2) as Hv12 by (by rewrite <-Hunc).
  destruct (priority_components graph st1 v1 Hnd Hinv1 Hv1)
    as (s1 & m1 & Hs1 & Hm1 & Hp1).
  destruct (priority_components graph st1 v2 Hnd Hinv1 Hv21)
    as (s2 & m2 & Hs2 & Hm2 & Hp2).
  assert (v2 = v1) as ->.
  { pose proof (first_max_upper _ _ _ v2 _ _ Hmax1 Hv21 Hp1 Hp2) as Hle1.
    rewrite <-Hdsat in Hmax2.
    pose proof (first_max_upper _ _ _ v1 _ _ Hmax2 Hv12 Hp2 Hp1) as Hle2.
    apply pair_lt_false in Hle1, Hle2. simpl in Hle1, Hle2.
    apply (Hfree st1 v1 v2 m1 m2); try done.
    - rewrite Hs1, Hs2. f_equal. lia.
    - lia. }
  assert (n2 = n1) as -> by congruence.
  exists st1', st2'. split; [done|]. split; [done|].
  split; [by rewrite Hcs1, Hcs2, Hcs|].
  assert (uncolored st1' ≡ₚ uncolored st2') as Hperm
    by (by rewrite Hunc1, Hunc2, Hunc).
  split; [|done]. apply map_eq. intros w.
  rewrite Hd1, Hd2, <-Hdsat, Hcs1, Hcs2, Hcs.
  destruct (decide (w ∈ n1 ∧ w ∈ uncolored st1')) as [[Hw1 Hw2]|Hw].
  - by rewrite decide_True by (by rewrite <-Hperm).
  - rewrite decide_False; [done|]. by rewrite <-Hperm.
Qed.

Lemma loop_same_state `{SetOrder} graph fuel st1 st2 :
  NoDup (dict_keys graph) → tie_free graph → reachable graph st1 →
  same_state st1 st2 → loop fuel graph st1 = loop fuel graph st2.
Proof.
  intros Hnd Hfree. revert st1 st2.
  induction fuel as [|fuel IH]; intros st1 st2 Hreach Hsame.
  - simpl. destruct Hsame as (Hcs & _ & Hunc).
    destruct (uncolored st1) as [|x1 u1], (uncolored st2) as [|x2 u2];
      try done; [by rewrite Hcs|..].
    + by apply Permutation_nil_l in Hunc.
    + by apply Permutation_nil_r in Hunc.
  - destruct (decide (uncolored st1 = [])) as [Hnil|Hne].
    + destruct Hsame as (Hcs & _ & Hunc). simpl.
      rewrite Hnil in Hunc. apply Permutation_nil_l in Hunc.
      by rewrite Hnil, <-Hunc, Hcs.
    + destruct (step_same_state graph st1 st2 Hnd Hfree Hreach Hsame Hne)
        as (st1' & st2' & Hstep1 & Hstep2 & Hsame').
      assert (uncolored st2 ≠ []) as Hne2.
      { destruct Hsame as (_ & _ & Hunc). intros Hnil.
        rewrite Hnil in Hunc. by apply Permutation_nil_r in Hunc. }
      simpl. destruct (uncolored st1) as [|x1 u1] eqn:Hu1; [done|].
      destruct (uncolored st2) as [|x2 u2] eqn:Hu2; [done|].
      rewrite Hstep1, Hstep2, !bind_Ok_l. apply IH; [|done].
      eapply reach_step; [done| |done]. by rewrite Hu1.
Qed.

Lemma init_same_state (order1 order2 : SetOrder) graph :
  NoDup (dict_keys graph) →
  match @init order1 graph, @init order2 graph with
  | Ok st1, Ok st2 => same_state st1 st2
  | Raise e1, Raise e2 => e1 = e2
  | _, _ => False
  end.
Proof.
  intros Hnd. unfold init. rewrite init_dsat_eq, !bind_Ok_l by done.
  destruct (py_max Nat.ltb (map_getitem (degree_of graph)) (dict_keys graph))
    as [v|] eqn:Hmax; [|done].
  rewrite !bind_Ok_l.
  apply py_max_elem in Hmax as Hv.
  rewrite (set_remove_Ok (@set_iter order1 (dict_keys graph)) v)
    by (by apply (@set_iter_elem order1)).
  rewrite (set_remove_Ok (@set_iter order2 (dict_keys graph)) v)
    by (by apply (@set_iter_elem order2)).
  rewrite !bind_Ok_l.
  destruct (getitem graph v) as [ns|]; [|done]. rewrite !bind_Ok_l.
  assert (filter (λ y, y ≠ v) (@set_iter order1 (dict_keys graph))
          ≡ₚ filter (λ y, y ≠ v) (@set_iter order2 (dict_keys graph)))
    as Hperm.
  { f_equiv. apply NoDup_Permutation;
      [apply (@set_iter_NoDup order1)|apply (@set_iter_NoDup order2)|].
    intros x. by rewrite (@set_iter_elem order1), (@set_iter_elem order2). }
  destruct (for_each_update_first graph (dict_set [] v 1)
              (filter (λ y, y ≠ v) (@set_iter order1 (dict_keys graph)))
              ns (degree_of graph)) as (m1 & -> & Hm1).
  { intros w [_ Hw]%list_elem_of_filter.
    by apply (@set_iter_elem order1 (dict_keys graph) w). }
  destruct (for_each_update_first graph (dict_set [] v 1)
              (filter (λ y, y ≠ v) (@set_iter order2 (dict_keys graph)))
              ns (degree_of graph)) as (m2 & -> & Hm2).
  { intros w [_ Hw]%list_elem_of_filter.
    by apply (@set_iter_elem order2 (dict_keys graph) w). }
  rewrite !bind_Ok_l. split; [done|]. split; [|done]. simpl.
  apply map_eq. intros w. rewrite Hm1, Hm2.
  destruct (decide (w ∈ ns ∧ w ∈ filter (λ y, y ≠ v)
                                  (@set_iter order1 (dict_keys graph))))
    as [[Hw1 Hw2]|Hw].
  - by rewrite decide_True by (by rewrite <-Hperm).
  - rewrite decide_False; [done|]. by rewrite <-Hperm.
Qed.

(** X16: the order in which the set of uncoloured vertices is iterated only
    matters for ties.  When, in the run under one set order, no uncoloured
    vertex ever has the same pair (DSAT, degree) as the vertex coloured
    next, the run under any other set order returns the same assignment,
    built in the same order. *)
Theorem dsatur_order_independent (order1 order2 : SetOrder) graph :
  NoDup (dict_keys graph) → @tie_free order1 graph →
  @dsatur order2 graph = @dsatur order1 graph.
Proof.
  intros Hnd Hfree. unfold dsatur, dsatur_fuel.
  pose proof (init_same_state order1 order2 graph Hnd) as Hinit.
  destruct (@init order1 graph) as [st1|e1] eqn:Hinit1,
           (@init order2 graph) as [st2|e2]; try done; [|by subst].
  rewrite !bind_Ok_l. symmetry.
  apply (@loop_same_state order1); [done..| |done].
  by apply reach_init.
Qed.

Lemma self_loop3_tie_free : tie_free self_loop3.
Proof.
  destruct (init self_loop3) as [s0|e] eqn:H0; [|by vm_compute in H0].
  destruct (step self_loop3 s0) as [s1|e] eqn:H1;
    [|vm_compute in H0; injection H0 as <-; by vm_compute in H1].
  destruct (step self_loop3 s1) as [s2|e] eqn:H2;
    [|vm_compute in H0; injection H0 as <-;
      vm_compute in H1; injection H1 as <-; by vm_compute in H2].
  assert (uncolored s2 = []) as Hdone.
  { vm_compute in H0; injection H0 as <-.
    vm_compute in H1; injection H1 as <-.
    vm_compute in H2. by injection H2 as <-. }
  assert (∀ st, reachable self_loop3 st → st = s0 ∨ st = s1 ∨ st = s2)
    as Hstates.
  { induction 1 as [st Hinit|st st' _ IH Hne Hstep].
    - left. congruence.
    - destruct IH as [->|[->| ->] ]; [right; left|right; right|done];
        congruence. }
  intros st v w nv nw Hreach Hnext Hw Hdsat Hnv Hnw Hlen.
  vm_compute in H0; injection H0 as <-.
  vm_compute in H1; injection H1 as <-.
  vm_compute in H2; injection H2 as <-.
  destruct (Hstates st Hreach) as [->|[->| ->] ];
    vm_compute in Hnext; simplify_eq; simpl in Hw;
    repeat (apply elem_of_cons in Hw as [->|Hw]);
    try (by apply elem_of_nil in Hw); try done.
  vm_compute in Hnv, Hnw. by simplify_eq.
Qed.

Lemma dsatur_order_independent_witness :
  @set_iter reverse_slot_set_order (dict_keys self_loop3) = [3; 2; 1]%Z ∧
  @set_iter slot_set_order (dict_keys self_loop3) = [1; 2; 3]%Z ∧
  @dsatur reverse_slot_set_order self_loop3 =
  @dsatur slot_set_order self_loop3.
Proof.
  split; [by vm_compute|]. split; [by vm_compute|].
  apply (dsatur_order_independent slot_set_order reverse_slot_set_order
           self_loop3); [compute_done|exact self_loop3_tie_free].
Defined.
